(** * A shallow embedding of [mod.ts] (the Result type and its utilities)

    The TypeScript module builds two kinds of objects, [ok(data)] and
    [err(error)], each carrying its own closures as methods, and a
    namespace [Result] of free functions over them.  The embedding keeps
    what the claims depend on:

    - payloads and errors are JavaScript values ([value]);
    - a Result is an object on a heap, denoted by its address, so that
      [return this] and [return result] alias the receiver while
      [ok(...)] and [err(...)] allocate;
    - callbacks are client code: they may read and change the world and
      may throw, so every operation lives in a state-and-exception monad
      [M]. *)

From Stdlib Require Import Ascii String.
From stdpp Require Import base option list strings gmap pretty.

#[local] Set Warnings "-register-all".

(** ** JavaScript values *)

(** The fragment of JavaScript values used as payloads, errors and thrown
    values.  [VNum] holds the integer-valued numbers that print as plain
    decimal digits, [VBigInt] the BigInts, [VError name message] an
    instance of a built-in error class that has no enumerable property
    of its own, [VObject] a plain object literal with its own enumerable
    properties, none named as an array index, in insertion order.
    Strings are sequences of one-byte code units. *)
Inductive value : Type :=
  | VUndefined
  | VNull
  | VBool (b : bool)
  | VNum (n : Z)
  | VBigInt (n : Z)
  | VStr (s : string)
  | VArr (elements : list value)
  | VObject (properties : list (string * value))
  | VError (name message : string).

(** [new Error(message)] and the [TypeError] the host raises. *)
Definition Error (message : string) : value := VError "Error" message.
Definition TypeError (message : string) : value := VError "TypeError" message.

(** ** The host's [JSON.stringify] *)

Definition dquote : string := String (ascii_of_nat 34) "".
Definition backslash : string := String (ascii_of_nat 92) "".

Definition hex_digit (n : nat) : string :=
  match n with
  | 0 => "0" | 1 => "1" | 2 => "2" | 3 => "3" | 4 => "4" | 5 => "5"
  | 6 => "6" | 7 => "7" | 8 => "8" | 9 => "9" | 10 => "a" | 11 => "b"
  | 12 => "c" | 13 => "d" | 14 => "e" | _ => "f"
  end.

(** One code unit of a string under QuoteJSONString. *)
Definition quote_char (c : ascii) : string :=
  let n := Ascii.nat_of_ascii c in
  if decide (n = 34) then backslash +:+ dquote
  else if decide (n = 92) then backslash +:+ backslash
  else if decide (n = 8) then backslash +:+ "b"
  else if decide (n = 9) then backslash +:+ "t"
  else if decide (n = 10) then backslash +:+ "n"
  else if decide (n = 12) then backslash +:+ "f"
  else if decide (n = 13) then backslash +:+ "r"
  else if decide (n < 32) then
    backslash +:+ "u00" +:+ hex_digit (n / 16) +:+ hex_digit (n mod 16)
  else String c "".

Fixpoint quote_chars (s : string) : string :=
  match s with
  | EmptyString => ""
  | String c rest => quote_char c +:+ quote_chars rest
  end.

Definition QuoteJSONString (s : string) : string :=
  dquote +:+ quote_chars s +:+ dquote.

(** What serialising one value gives: a text, nothing at all (the host
    returns [undefined]), or an exception. *)
Inductive rendering : Type :=
  | Text (s : string)
  | Omitted
  | Unserializable.

(** SerializeJSONProperty on the fragment: [undefined] has no rendering,
    a BigInt makes the host throw a [TypeError], an array renders a
    missing element as [null], an object leaves out the properties that
    have no rendering, and an error instance has no enumerable property
    of its own. *)
Fixpoint serialize (v : value) : rendering :=
  match v with
  | VUndefined => Omitted
  | VNull => Text "null"
  | VBool true => Text "true"
  | VBool false => Text "false"
  | VNum n => Text (pretty n)
  | VBigInt _ => Unserializable
  | VStr s => Text (QuoteJSONString s)
  | VArr elements =>
      match
        (fix items (l : list value) : option (list string) :=
           match l with
           | [] => Some []
           | x :: l' =>
               match serialize x with
               | Unserializable => None
               | Omitted => cons "null" <$> items l'
               | Text s => cons s <$> items l'
               end
           end) elements
      with
      | Some parts => Text ("[" +:+ String.concat "," parts +:+ "]")
      | None => Unserializable
      end
  | VObject properties =>
      match
        (fix members (l : list (string * value)) : option (list string) :=
           match l with
           | [] => Some []
           | (k, x) :: l' =>
               match serialize x with
               | Unserializable => None
               | Omitted => members l'
               | Text s => cons (QuoteJSONString k +:+ ":" +:+ s) <$> members l'
               end
           end) properties
      with
      | Some parts => Text ("{" +:+ String.concat "," parts +:+ "}")
      | None => Unserializable
      end
  | VError _ _ => Text "{}"
  end.

(** ** Worlds, outcomes and the monad of operations *)

(** An object built by [ok] or by [err].  The slot the constructor sets to
    [null] is not stored: [data] and [error] below read it back. *)
Inductive object : Type :=
  | Ok (data : value)
  | Err (error : value).

(** A Result, as the program passes it around: the address of its object. *)
Definition ref : Type := nat.

(** The heap of Result objects and the client's own variables. *)
Record world : Type := World {
  heap : list object;
  globals : gmap string value
}.

(** A call returns or throws. *)
Inductive outcome (A : Type) : Type :=
  | Returned (a : A)
  | Thrown (x : value).
Arguments Returned {A} a.
Arguments Thrown {A} x.

Definition M (A : Type) : Type := world → outcome A * world.

#[global] Instance M_ret : MRet M := λ A a w, (Returned a, w).

#[global] Instance M_bind : MBind M := λ A B f m w,
  match m w with
  | (Returned a, w') => f a w'
  | (Thrown x, w') => (Thrown x, w')
  end.

Definition throw {A : Type} (x : value) : M A := λ w, (Thrown x, w).

(** [try { body } catch (error) { handler(error) }] *)
Definition try_catch {A : Type} (body : M A) (handler : value → M A) : M A :=
  λ w,
    match body w with
    | (Returned a, w') => (Returned a, w')
    | (Thrown error, w') => handler error w'
    end.

(** An object literal is evaluated: a new object at the next address. *)
Definition alloc (o : object) : M ref := λ w,
  (Returned (length (heap w)), World (heap w ++ [o]) (globals w)).

(** Dereferencing.  Typed client code only holds addresses of objects it
    got from [ok] or [err]; on any other address the access throws, as
    a property access on a non-object does. *)
Definition load (r : ref) : M object := λ w,
  match heap w !! r with
  | Some o => (Returned o, w)
  | None => (Thrown (TypeError "Cannot read properties of undefined"), w)
  end.

(** The three data fields of a Result object. *)
Definition success (o : object) : bool :=
  match o with Ok _ => true | Err _ => false end.
Definition data (o : object) : value :=
  match o with Ok d => d | Err _ => VNull end.
Definition error (o : object) : value :=
  match o with Ok _ => VNull | Err e => e end.

Definition get_data (r : ref) : M value := o ← load r; mret (data o).
Definition get_error (r : ref) : M value := o ← load r; mret (error o).

(** [JSON.stringify(v)] as a call: a string, [undefined], or a thrown
    [TypeError]. *)
Definition JSON_stringify (v : value) : M (option string) :=
  match serialize v with
  | Text s => mret (Some s)
  | Omitted => mret None
  | Unserializable => throw (TypeError "Do not know how to serialize a BigInt")
  end.

(** A substitution in a template literal applies ToString: [undefined]
    prints as the word. *)
Definition template_arg (s : option string) : string :=
  match s with Some s => s | None => "undefined" end.

(** ** The constructors and their methods *)

(** Callbacks: [fn: (data: T) => U] and [fn: (data: T) => Result<U, F>]. *)
Definition callback : Type := value → M value.
Definition chain : Type := value → M ref.

(** [ok(data)]: the object literal with [success: true, data, error: null]. *)
Definition ok (data : value) : M ref := alloc (Ok data).

(** [err(error)]: the object literal with [success: false, data: null, error]. *)
Definition err (error : value) : M ref := alloc (Err error).

(** The methods of the object [ok(data)] returns.  Each closes over the
    parameter [data]; [mapErr] alone uses [this]. *)
Definition ok_isOk : M bool := mret true.
Definition ok_isErr : M bool := mret false.
Definition ok_map (data : value) (fn : callback) : M ref :=
  x ← fn data; ok x.
Definition ok_mapErr (this : ref) (_fn : callback) : M ref := mret this.
Definition ok_andThen (data : value) (fn : chain) : M ref := fn data.
Definition ok_unwrapOr (data : value) (_defaultValue : value) : M value :=
  mret data.
Definition ok_unwrap (data : value) : M value := mret data.
Definition ok_expect (data : value) (_message : string) : M value := mret data.

(** The methods of the object [err(error)] returns. *)
Definition err_isOk : M bool := mret false.
Definition err_isErr : M bool := mret true.
Definition err_map (this : ref) (_fn : callback) : M ref := mret this.
Definition err_mapErr (error : value) (fn : callback) : M ref :=
  x ← fn error; err x.
Definition err_andThen (this : ref) (_fn : chain) : M ref := mret this.
Definition err_unwrapOr (defaultValue : value) : M value := mret defaultValue.
Definition err_unwrap (error : value) : M value :=
  s ← JSON_stringify error;
  throw (Error ("Called unwrap on an Err value: " +:+ template_arg s)).
Definition err_expect (error : value) (message : string) : M value :=
  s ← JSON_stringify error;
  throw (Error (message +:+ ": " +:+ template_arg s)).

(** ** Method calls [r.m(...)]: the receiver's own closure runs *)

Definition isOk (r : ref) : M bool :=
  o ← load r;
  match o with Ok _ => ok_isOk | Err _ => err_isOk end.

Definition isErr (r : ref) : M bool :=
  o ← load r;
  match o with Ok _ => ok_isErr | Err _ => err_isErr end.

Definition map (r : ref) (fn : callback) : M ref :=
  o ← load r;
  match o with Ok d => ok_map d fn | Err _ => err_map r fn end.

Definition mapErr (r : ref) (fn : callback) : M ref :=
  o ← load r;
  match o with Ok _ => ok_mapErr r fn | Err e => err_mapErr e fn end.

Definition andThen (r : ref) (fn : chain) : M ref :=
  o ← load r;
  match o with Ok d => ok_andThen d fn | Err _ => err_andThen r fn end.

Definition unwrapOr (r : ref) (defaultValue : value) : M value :=
  o ← load r;
  match o with
  | Ok d => ok_unwrapOr d defaultValue
  | Err _ => err_unwrapOr defaultValue
  end.

Definition unwrap (r : ref) : M value :=
  o ← load r;
  match o with Ok d => ok_unwrap d | Err e => err_unwrap e end.

Definition expect (r : ref) (message : string) : M value :=
  o ← load r;
  match o with Ok d => ok_expect d message | Err e => err_expect e message end.

(** ** Promises and [async] functions *)

(** A promise, by what becomes of it: it fulfills, it rejects, or it
    stays pending for ever. *)
Inductive Promise (A : Type) : Type :=
  | Fulfilled (v : A)
  | Rejected (reason : value)
  | Pending.
Arguments Fulfilled {A} v.
Arguments Rejected {A} reason.
Arguments Pending {A}.

(** The body of an [async] function returns, throws, or is parked for
    ever at an [await]. *)
Inductive completion (A : Type) : Type :=
  | Completes (o : outcome A)
  | Suspended.
Arguments Completes {A} o.
Arguments Suspended {A}.

Definition Async (A : Type) : Type := world → completion A * world.

#[global] Instance Async_ret : MRet Async := λ A a w,
  (Completes (Returned a), w).

#[global] Instance Async_bind : MBind Async := λ A B f m w,
  match m w with
  | (Completes (Returned a), w') => f a w'
  | (Completes (Thrown x), w') => (Completes (Thrown x), w')
  | (Suspended, w') => (Suspended, w')
  end.

(** Synchronous code inside an [async] body. *)
Definition run {A : Type} (m : M A) : Async A := λ w,
  let '(o, w') := m w in (Completes o, w').

(** [await p]: the value [p] fulfills with, a throw of the reason [p]
    rejects with, and no continuation at all while [p] is pending.  What
    other tasks do to the world between the suspension and the
    resumption is left out: the continuation runs in the world the body
    was suspended in. *)
Definition await {A : Type} (p : Promise A) : Async A := λ w,
  match p with
  | Fulfilled v => (Completes (Returned v), w)
  | Rejected reason => (Completes (Thrown reason), w)
  | Pending => (Suspended, w)
  end.

(** [try { body } catch (error) { handler(error) }] in an [async] body. *)
Definition async_try_catch {A : Type}
    (body : Async A) (handler : value → Async A) : Async A :=
  λ w,
    match body w with
    | (Completes (Thrown error), w') => handler error w'
    | other => other
    end.

(** Calling an [async] function never throws: the call returns a promise
    that fulfills with what the body returns, rejects with what it
    throws, and stays pending if the body never resumes. *)
Definition async {A : Type} (body : Async A) : M (Promise A) := λ w,
  match body w with
  | (Completes (Returned v), w') => (Returned (Fulfilled v), w')
  | (Completes (Thrown x), w') => (Returned (Rejected x), w')
  | (Suspended, w') => (Returned Pending, w')
  end.

(** ** The [Result] namespace *)

Module Result.

(** [Result.try(fn)]; the name [try] is taken by the tactic language. *)
Definition try_ (fn : M value) : M ref :=
  try_catch (x ← fn; ok x) (λ error, err error).

(** [Result.tryAsync(fn)] *)
Definition tryAsync (fn : M (Promise value)) : M (Promise ref) :=
  async
    (async_try_catch
       (p ← run fn; data ← await p; run (ok data))
       (λ error, run (err error))).

Definition map (result : ref) (fn : callback) : M ref :=
  b ← isOk result;
  if b : bool then d ← get_data result; x ← fn d; ok x
  else mret result.

Definition mapErr (result : ref) (fn : callback) : M ref :=
  b ← isErr result;
  if b : bool then e ← get_error result; x ← fn e; err x
  else mret result.

Definition andThen (result : ref) (fn : chain) : M ref :=
  b ← isOk result;
  if b : bool then d ← get_data result; fn d
  else mret result.

Definition unwrapOr (result : ref) (defaultValue : value) : M value :=
  b ← isOk result;
  if b : bool then get_data result
  else mret defaultValue.

(** The loop of [Result.all]: [values] is the array built so far. *)
Fixpoint all_loop (results : list ref) (values : list value) : M ref :=
  match results with
  | [] => ok (VArr values)
  | result :: rest =>
      b ← isErr result;
      if b : bool then mret result
      else d ← get_data result; all_loop rest (values ++ [d])
  end.

Definition all (results : list ref) : M ref := all_loop results [].

Definition unwrap (result : ref) : M value := unwrap result.

Definition expect (result : ref) (message : string) : M value :=
  expect result message.

(** The loop of [Result.collectErrors]. *)
Fixpoint collectErrors_loop (results : list ref) (errors : list value)
    : M (list value) :=
  match results with
  | [] => mret errors
  | result :: rest =>
      b ← isErr result;
      if b : bool
      then e ← get_error result; collectErrors_loop rest (errors ++ [e])
      else collectErrors_loop rest errors
  end.

Definition collectErrors (results : list ref) : M (list value) :=
  collectErrors_loop results [].

(** The loop of [Result.partition]. *)
Fixpoint partition_loop (results : list ref)
    (successes failures : list value) : M (list value * list value) :=
  match results with
  | [] => mret (successes, failures)
  | result :: rest =>
      b ← isOk result;
      if b : bool
      then d ← get_data result;
           partition_loop rest (successes ++ [d]) failures
      else e ← get_error result;
           partition_loop rest successes (failures ++ [e])
  end.

Definition partition (results : list ref) : M (list value * list value) :=
  partition_loop results [] [].

Definition isOk (result : ref) : M bool := isOk result.

Definition isErr (result : ref) : M bool := isErr result.

End Result.

(** ** Vocabulary of the statements *)

(** The world in which nothing has been built yet. *)
Definition empty_world : world := World [] ∅.

(** A small world for the concrete runs: [ok(1)], [err("e1")], [ok(3)],
    [err("e2")] at the addresses 0 to 3. *)
Definition four_results : world :=
  World [Ok (VNum 1); Err (VStr "e1"); Ok (VNum 3); Err (VStr "e2")] ∅.

(** The world after one more object literal has been evaluated. *)
Definition extend (w : world) (o : object) : world :=
  World (heap w ++ [o]) (globals w).

(** The array [results] holds, in order, the objects [objs] of [w]. *)
Definition denotes (w : world) (results : list ref) (objs : list object)
    : Prop :=
  Forall2 (λ r o, heap w !! r = Some o) results objs.

(** The payloads of the Ok objects, and the errors of the Err objects, of
    a sequence, each in the order of the sequence. *)
Definition payload (o : object) : option value :=
  match o with Ok d => Some d | Err _ => None end.
Definition failure (o : object) : option value :=
  match o with Ok _ => None | Err e => Some e end.
Definition payloads (objs : list object) : list value := omap payload objs.
Definition failures (objs : list object) : list value := omap failure objs.

(** An assignment to one of the client's variables, as a callback may
    make. *)
Definition set_global (name : string) (v : value) : M unit := λ w,
  (Returned (), World (heap w) (<[name := v]> (globals w))).

(** A callback that computes [f] and does nothing else. *)
Definition pure (f : value → value) : callback := λ v, mret (f v).

(** What a caller can see of the Result an operation hands back: that it
    threw, or the object behind the returned address. *)
Definition observe (m : M ref) (w : world) : option (outcome object) :=
  match m w with
  | (Returned r, w') => Returned <$> heap w' !! r
  | (Thrown x, _) => Some (Thrown x)
  end.

(** An operation leaves every object that exists when it starts as it is:
    the heap it ends with is the heap it started with, possibly followed
    by new objects. *)
Definition keeps_objects {A : Type} (m : M A) : Prop :=
  ∀ w, heap w `prefix_of` heap (m w).2.

(** One link of a method chain [r.map(f).andThen(g).mapErr(h)...]. *)
Inductive link : Type :=
  | MapLink (fn : callback)
  | MapErrLink (fn : callback)
  | AndThenLink (next : chain).

Definition call_link (r : ref) (l : link) : M ref :=
  match l with
  | MapLink fn => map r fn
  | MapErrLink fn => mapErr r fn
  | AndThenLink next => andThen r next
  end.

(** The method chain on [r]: each call has the Result of the call before
    it as its receiver. *)
Fixpoint method_chain (r : ref) (links : list link) : M ref :=
  match links with
  | [] => mret r
  | l :: rest => r' ← call_link r l; method_chain r' rest
  end.

Definition acts_on_errors (l : link) : bool :=
  match l with MapErrLink _ => true | _ => false end.

(** ** A caller: the batch-processing test *)

(** [xs.map(fn)]: the callback runs on each element, in order. *)
Fixpoint Array_map {A B : Type} (xs : list A) (fn : A → M B) : M (list B) :=
  match xs with
  | [] => mret []
  | x :: rest => y ← fn x; ys ← Array_map rest fn; mret (y :: ys)
  end.

(** The numbers that are integers and that a JavaScript number holds
    exactly, as [Number.isSafeInteger] tells. *)
Definition safe_integer (n : Z) : Prop := (- 2 ^ 53 < n < 2 ^ 53)%Z.

(** [processNumber] of the test: an Err with a message for a negative
    number, an Ok with the double otherwise. *)
Definition processNumber (n : Z) : M ref :=
  if decide (n < 0)%Z
  then err (VStr ("Negative number: " +:+ pretty n))
  else ok (VNum (n * 2)).

(** The object [processNumber] builds for [n]. *)
Definition processed (n : Z) : object :=
  if decide (n < 0)%Z
  then Err (VStr ("Negative number: " +:+ pretty n))
  else Ok (VNum (n * 2)).

(** ** Basic facts about the monad and the heap *)

Lemma bind_Returned {A B : Type} (m : M A) (f : A → M B) w a w' :
  m w = (Returned a, w') → (m ≫= f) w = f a w'.
Proof. intros H. unfold mbind, M_bind. by rewrite H. Qed.

Lemma bind_Thrown {A B : Type} (m : M A) (f : A → M B) w x w' :
  m w = (Thrown x, w') → (m ≫= f) w = (Thrown x, w').
Proof. intros H. unfold mbind, M_bind. by rewrite H. Qed.

Lemma load_at w r o : heap w !! r = Some o → load r w = (Returned o, w).
Proof. intros H. unfold load. by rewrite H. Qed.

Lemma load_dangling w r :
  heap w !! r = None →
  load r w = (Thrown (TypeError "Cannot read properties of undefined"), w).
Proof. intros H. unfold load. by rewrite H. Qed.

Lemma alloc_extend o w : alloc o w = (Returned (length (heap w)), extend w o).
Proof. reflexivity. Qed.

Lemma lookup_extend_new w o : heap (extend w o) !! length (heap w) = Some o.
Proof. simpl. apply list_lookup_middle. done. Qed.

Lemma lookup_extend_old w o r o' :
  heap w !! r = Some o' → heap (extend w o) !! r = Some o'.
Proof. intros H. simpl. by apply lookup_app_l_Some. Qed.

Lemma isOk_at w r o : heap w !! r = Some o → isOk r w = (Returned (success o), w).
Proof.
  intros H. unfold isOk. rewrite (bind_Returned _ _ _ _ _ (load_at _ _ _ H)).
  by destruct o.
Qed.

Lemma isErr_at w r o :
  heap w !! r = Some o → isErr r w = (Returned (negb (success o)), w).
Proof.
  intros H. unfold isErr. rewrite (bind_Returned _ _ _ _ _ (load_at _ _ _ H)).
  by destruct o.
Qed.

Lemma get_data_at w r o :
  heap w !! r = Some o → get_data r w = (Returned (data o), w).
Proof.
  intros H. unfold get_data.
  by rewrite (bind_Returned _ _ _ _ _ (load_at _ _ _ H)).
Qed.

Lemma get_error_at w r o :
  heap w !! r = Some o → get_error r w = (Returned (error o), w).
Proof.
  intros H. unfold get_error.
  by rewrite (bind_Returned _ _ _ _ _ (load_at _ _ _ H)).
Qed.

Lemma isOk_dangling w r :
  heap w !! r = None →
  isOk r w = (Thrown (TypeError "Cannot read properties of undefined"), w).
Proof.
  intros H. unfold isOk. by rewrite (bind_Thrown _ _ _ _ _ (load_dangling _ _ H)).
Qed.

Lemma isErr_dangling w r :
  heap w !! r = None →
  isErr r w = (Thrown (TypeError "Cannot read properties of undefined"), w).
Proof.
  intros H. unfold isErr. by rewrite (bind_Thrown _ _ _ _ _ (load_dangling _ _ H)).
Qed.

(** Rewriting a method call or a field read on a known object. *)
Ltac on_object H :=
  repeat
    (first
       [ rewrite (bind_Returned _ _ _ _ _ (isOk_at _ _ _ H))
       | rewrite (bind_Returned _ _ _ _ _ (isErr_at _ _ _ H))
       | rewrite (bind_Returned _ _ _ _ _ (get_data_at _ _ _ H))
       | rewrite (bind_Returned _ _ _ _ _ (get_error_at _ _ _ H))
       | rewrite (bind_Returned _ _ _ _ _ (load_at _ _ _ H)) ];
     cbn [success data error negb]).

(** ** The three loops over an array of Results *)

Section loops.
Variable w : world.

(** While it meets Ok elements the loop of [Result.all] only extends
    [values]; at an Err element it returns that element. *)
Lemma all_loop_first_err pre r e rest values :
  Forall (λ a, ∃ d, heap w !! a = Some (Ok d)) pre →
  heap w !! r = Some (Err e) →
  Result.all_loop (pre ++ r :: rest) values w = (Returned r, w).
Proof.
  intros Hpre Hr. revert values.
  induction Hpre as [|a pre [d Ha] _ IH]; intros values; simpl.
  - by on_object Hr.
  - on_object Ha. apply IH.
Qed.

Lemma all_loop_all_ok results ds values :
  Forall2 (λ r d, heap w !! r = Some (Ok d)) results ds →
  Result.all_loop results values w = ok (VArr (values ++ ds)) w.
Proof.
  intros H. revert values.
  induction H as [|r d results ds Hr _ IH]; intros values; simpl.
  - by rewrite app_nil_r.
  - on_object Hr. rewrite IH. by rewrite <- app_assoc.
Qed.

Lemma collectErrors_loop_spec results objs errors :
  denotes w results objs →
  Result.collectErrors_loop results errors w
  = (Returned (errors ++ failures objs), w).
Proof.
  intros H. revert errors.
  induction H as [|r o results objs Hr _ IH]; intros errors; simpl.
  - by rewrite app_nil_r.
  - on_object Hr. destruct o as [d|e]; simpl.
    + apply IH.
    + on_object Hr. rewrite IH. by rewrite <- app_assoc.
Qed.

Lemma partition_loop_spec results objs successes errors :
  denotes w results objs →
  Result.partition_loop results successes errors w
  = (Returned (successes ++ payloads objs, errors ++ failures objs), w).
Proof.
  intros H. revert successes errors.
  induction H as [|r o results objs Hr _ IH]; intros successes errors; simpl.
  - by rewrite !app_nil_r.
  - on_object Hr. destruct o as [d|e]; simpl.
    + on_object Hr. rewrite IH. by rewrite <- app_assoc.
    + on_object Hr. rewrite IH. by rewrite <- app_assoc.
Qed.

(** An array of Results either has a first Err element or holds Ok
    elements only. *)
Lemma first_err_or_all_ok results objs :
  denotes w results objs →
  (∃ pre r e rest,
     results = pre ++ r :: rest
     ∧ Forall (λ a, ∃ d, heap w !! a = Some (Ok d)) pre
     ∧ heap w !! r = Some (Err e))
  ∨ (∃ ds, Forall2 (λ r d, heap w !! r = Some (Ok d)) results ds).
Proof.
  induction 1 as [|r o results objs Hr _ IH].
  - right. by exists [].
  - destruct o as [d|e].
    + destruct IH as [(pre & r' & e & rest & -> & Hpre & Hr')|[ds Hds]].
      * left. exists (r :: pre), r', e, rest. split; [done|].
        split; [|done]. constructor; [by exists d|done].
      * right. exists (d :: ds). by constructor.
    + left. exists [], r, e, results. by repeat split.
Qed.

Lemma payloads_failures_length objs :
  length (payloads objs) + length (failures objs) = length objs.
Proof.
  induction objs as [|[d|e] objs IH]; simpl; lia.
Qed.

Lemma failures_all_ok objs :
  Forall (λ o, success o = true) objs → failures objs = [].
Proof.
  induction 1 as [|[d|e] objs Ho _ IH]; simpl; [done|done|discriminate].
Qed.

End loops.

(** ** Result.all *)

(** C1. [Result.all] walks the array in order.  At the first Err element
    it returns that very element, object and error untouched, whatever
    follows it in the array (the rest is not even required to hold
    Results); when every element is Ok it returns [ok] of the array of
    their payloads in the original order; on the empty array it returns
    [ok] of the empty array.  Every array of Results is in one of the two
    cases. *)
Theorem Result_all_spec (w : world) :
  (∀ pre r e rest,
     Forall (λ a, ∃ d, heap w !! a = Some (Ok d)) pre →
     heap w !! r = Some (Err e) →
     Result.all (pre ++ r :: rest) w = (Returned r, w))
  ∧ (∀ results ds,
       Forall2 (λ r d, heap w !! r = Some (Ok d)) results ds →
       Result.all results w = ok (VArr ds) w)
  ∧ Result.all [] w = ok (VArr []) w
  ∧ (∀ results objs,
       denotes w results objs →
       (∃ pre r e rest,
          results = pre ++ r :: rest
          ∧ Forall (λ a, ∃ d, heap w !! a = Some (Ok d)) pre
          ∧ heap w !! r = Some (Err e))
       ∨ (∃ ds, Forall2 (λ r d, heap w !! r = Some (Ok d)) results ds)).
Proof.
  split; [|split; [|split]].
  - intros pre r e rest Hpre Hr. by apply all_loop_first_err with e.
  - intros results ds H. unfold Result.all.
    by rewrite (all_loop_all_ok w results ds []).
  - reflexivity.
  - apply first_err_or_all_ok.
Qed.

Lemma Result_all_spec_witness :
  Result.all [0; 1; 2; 3] four_results = (Returned 1, four_results)
  ∧ Result.all [0; 2] four_results
    = (Returned 4, extend four_results (Ok (VArr [VNum 1; VNum 3]))).
Proof.
  destruct (Result_all_spec four_results) as (Hfirst & Hall & _ & _). split.
  - apply (Hfirst [0] 1 (VStr "e1") [2; 3]).
    + repeat constructor. by exists (VNum 1).
    + reflexivity.
  - apply (Hall [0; 2] [VNum 1; VNum 3]). by repeat constructor.
Defined.

(** ** Result.partition *)

(** C6. [Result.partition] goes through the whole array once and returns
    the payloads of its Ok elements and the errors of its Err elements,
    each in the order the elements have in the array; the two lengths
    add up to the length of the array. *)
Theorem Result_partition_spec (w : world) results objs :
  denotes w results objs →
  Result.partition results w
  = (Returned (payloads objs, failures objs), w)
  ∧ length (payloads objs) + length (failures objs) = length results.
Proof.
  intros H. split.
  - unfold Result.partition. by rewrite (partition_loop_spec w results objs).
  - rewrite payloads_failures_length. symmetry. by eapply Forall2_length.
Qed.

Lemma Result_partition_spec_witness :
  Result.partition [0; 1; 2; 3] four_results
  = (Returned ([VNum 1; VNum 3], [VStr "e1"; VStr "e2"]), four_results)
  ∧ 2 + 2 = 4.
Proof.
  apply (Result_partition_spec four_results [0; 1; 2; 3]
           [Ok (VNum 1); Err (VStr "e1"); Ok (VNum 3); Err (VStr "e2")]).
  by repeat constructor.
Defined.

(** ** Result.collectErrors *)

(** C7. [Result.collectErrors] goes through the whole array, past every
    Err it meets, and returns the errors of the Err elements in their
    original order; Ok elements add nothing, and an array without Err
    gives the empty array. *)
Theorem Result_collectErrors_spec (w : world) results objs :
  denotes w results objs →
  Result.collectErrors results w = (Returned (failures objs), w)
  ∧ (Forall (λ o, success o = true) objs →
     Result.collectErrors results w = (Returned [], w)).
Proof.
  intros H.
  assert (Result.collectErrors results w = (Returned (failures objs), w))
    as Hrun.
  { unfold Result.collectErrors.
    by rewrite (collectErrors_loop_spec w results objs). }
  split; [done|]. intros Hok. by rewrite Hrun, failures_all_ok.
Qed.

Lemma Result_collectErrors_spec_witness :
  Result.collectErrors [0; 1; 2; 3] four_results
  = (Returned [VStr "e1"; VStr "e2"], four_results)
  ∧ Result.collectErrors [0; 2; 0] four_results = (Returned [], four_results).
Proof.
  split.
  - apply (Result_collectErrors_spec four_results [0; 1; 2; 3]
             [Ok (VNum 1); Err (VStr "e1"); Ok (VNum 3); Err (VStr "e2")]).
    by repeat constructor.
  - apply (Result_collectErrors_spec four_results [0; 2; 0]
             [Ok (VNum 1); Ok (VNum 3); Ok (VNum 1)]).
    + by repeat constructor.
    + by repeat constructor.
Defined.

(** ** Method calls on a known object *)

Section on_a_known_object.
Variables (w : world) (r : ref).

Lemma map_on_ok d fn :
  heap w !! r = Some (Ok d) → map r fn w = (x ← fn d; ok x) w.
Proof. intros H. unfold map. by on_object H. Qed.

Lemma map_on_err e fn :
  heap w !! r = Some (Err e) → map r fn w = (Returned r, w).
Proof. intros H. unfold map. by on_object H. Qed.

Lemma mapErr_on_ok d fn :
  heap w !! r = Some (Ok d) → mapErr r fn w = (Returned r, w).
Proof. intros H. unfold mapErr. by on_object H. Qed.

Lemma mapErr_on_err e fn :
  heap w !! r = Some (Err e) → mapErr r fn w = (x ← fn e; err x) w.
Proof. intros H. unfold mapErr. by on_object H. Qed.

Lemma andThen_on_ok d fn :
  heap w !! r = Some (Ok d) → andThen r fn w = fn d w.
Proof. intros H. unfold andThen. by on_object H. Qed.

Lemma andThen_on_err e fn :
  heap w !! r = Some (Err e) → andThen r fn w = (Returned r, w).
Proof. intros H. unfold andThen. by on_object H. Qed.

Lemma unwrap_on_ok d :
  heap w !! r = Some (Ok d) → unwrap r w = (Returned d, w).
Proof. intros H. unfold unwrap. by on_object H. Qed.

Lemma expect_on_ok d message :
  heap w !! r = Some (Ok d) → expect r message w = (Returned d, w).
Proof. intros H. unfold expect. by on_object H. Qed.

Lemma unwrap_on_err e :
  heap w !! r = Some (Err e) → unwrap r w = err_unwrap e w.
Proof. intros H. unfold unwrap. by on_object H. Qed.

Lemma expect_on_err e message :
  heap w !! r = Some (Err e) → expect r message w = err_expect e message w.
Proof. intros H. unfold expect. by on_object H. Qed.

End on_a_known_object.

(** What [unwrap] and [expect] throw on an Err, by the three things
    [JSON.stringify] can do with the error. *)
Lemma err_unwrap_throws e w :
  err_unwrap e w
  = (Thrown
       match serialize e with
       | Text s => Error ("Called unwrap on an Err value: " +:+ s)
       | Omitted => Error "Called unwrap on an Err value: undefined"
       | Unserializable => TypeError "Do not know how to serialize a BigInt"
       end, w).
Proof.
  unfold err_unwrap, JSON_stringify. by destruct (serialize e).
Qed.

Lemma err_expect_throws e message w :
  err_expect e message w
  = (Thrown
       match serialize e with
       | Text s => Error (message +:+ ": " +:+ s)
       | Omitted => Error (message +:+ ": undefined")
       | Unserializable => TypeError "Do not know how to serialize a BigInt"
       end, w).
Proof.
  unfold err_expect, JSON_stringify. by destruct (serialize e).
Qed.

(** ** Each free function against the method it stands for *)

Section free_functions.
Variables (w : world) (result : ref).

Lemma Result_map_is_map fn : Result.map result fn w = map result fn w.
Proof.
  unfold Result.map, map.
  destruct (heap w !! result) as [[d|e]|] eqn:H.
  - by on_object H.
  - by on_object H.
  - by rewrite (bind_Thrown _ _ _ _ _ (isOk_dangling _ _ H)),
      (bind_Thrown _ _ _ _ _ (load_dangling _ _ H)).
Qed.

Lemma Result_mapErr_is_mapErr fn :
  Result.mapErr result fn w = mapErr result fn w.
Proof.
  unfold Result.mapErr, mapErr.
  destruct (heap w !! result) as [[d|e]|] eqn:H.
  - by on_object H.
  - by on_object H.
  - by rewrite (bind_Thrown _ _ _ _ _ (isErr_dangling _ _ H)),
      (bind_Thrown _ _ _ _ _ (load_dangling _ _ H)).
Qed.

Lemma Result_andThen_is_andThen fn :
  Result.andThen result fn w = andThen result fn w.
Proof.
  unfold Result.andThen, andThen.
  destruct (heap w !! result) as [[d|e]|] eqn:H.
  - by on_object H.
  - by on_object H.
  - by rewrite (bind_Thrown _ _ _ _ _ (isOk_dangling _ _ H)),
      (bind_Thrown _ _ _ _ _ (load_dangling _ _ H)).
Qed.

Lemma Result_unwrapOr_is_unwrapOr defaultValue :
  Result.unwrapOr result defaultValue w = unwrapOr result defaultValue w.
Proof.
  unfold Result.unwrapOr, unwrapOr.
  destruct (heap w !! result) as [[d|e]|] eqn:H.
  - on_object H. by rewrite (get_data_at _ _ _ H).
  - by on_object H.
  - by rewrite (bind_Thrown _ _ _ _ _ (isOk_dangling _ _ H)),
      (bind_Thrown _ _ _ _ _ (load_dangling _ _ H)).
Qed.

End free_functions.

(** C5. Each free function of the namespace gives, on every Result and
    every argument, exactly what the method of the same name gives on
    that Result: the same returned value or the same thrown value, and
    the same world afterwards. *)
Theorem free_functions_are_methods
    (result : ref) (fn : callback) (next : chain)
    (defaultValue : value) (message : string) (w : world) :
  Result.map result fn w = map result fn w
  ∧ Result.mapErr result fn w = mapErr result fn w
  ∧ Result.andThen result next w = andThen result next w
  ∧ Result.unwrapOr result defaultValue w = unwrapOr result defaultValue w
  ∧ Result.unwrap result w = unwrap result w
  ∧ Result.expect result message w = expect result message w
  ∧ Result.isOk result w = isOk result w
  ∧ Result.isErr result w = isErr result w.
Proof.
  repeat split.
  - apply Result_map_is_map.
  - apply Result_mapErr_is_mapErr.
  - apply Result_andThen_is_andThen.
  - apply Result_unwrapOr_is_unwrapOr.
Qed.

(** ** The side an operation does not act on *)

(** C3. [err(e).map(f)] and [err(e).andThen(g)] run exactly as [err(e)]
    alone does: they return the object [err(e)] built and leave the world
    as [err(e)] left it, so nothing [f] or [g] could do (return, throw,
    change a variable, build an object) has happened, and the object
    still is an Err carrying [e].  In the same way [ok(x).mapErr(f)] runs
    exactly as [ok(x)] alone and the object still is an Ok carrying [x].
    This holds for every callback, a throwing one included. *)
Theorem untouched_side_passes_through
    (e x thrown : value) (f : callback) (g : chain) (w : world) :
  ((r ← err e; map r f) w = err e w
   ∧ (r ← err e; andThen r g) w = err e w
   ∧ (r ← ok x; mapErr r f) w = ok x w)
  ∧ ((r ← err e; map r (λ _, throw thrown)) w = err e w
     ∧ (r ← err e; andThen r (λ _, throw thrown)) w = err e w
     ∧ (r ← ok x; mapErr r (λ _, throw thrown)) w = ok x w)
  ∧ (observe (r ← err e; map r f) w = Some (Returned (Err e))
     ∧ observe (r ← err e; andThen r g) w = Some (Returned (Err e))
     ∧ observe (r ← ok x; mapErr r f) w = Some (Returned (Ok x))).
Proof.
  assert (∀ f, (r ← err e; map r f) w = err e w) as Hmap.
  { intros f'. rewrite (bind_Returned _ _ _ _ _ (alloc_extend (Err e) w)).
    apply map_on_err with e, lookup_extend_new. }
  assert (∀ g, (r ← err e; andThen r g) w = err e w) as Hthen.
  { intros g'. rewrite (bind_Returned _ _ _ _ _ (alloc_extend (Err e) w)).
    apply andThen_on_err with e, lookup_extend_new. }
  assert (∀ f, (r ← ok x; mapErr r f) w = ok x w) as HmapErr.
  { intros f'. rewrite (bind_Returned _ _ _ _ _ (alloc_extend (Ok x) w)).
    apply mapErr_on_ok with x, lookup_extend_new. }
  split; [by auto|]. split; [by auto|].
  unfold observe. rewrite Hmap, Hthen, HmapErr.
  unfold ok, err. rewrite !alloc_extend, !lookup_extend_new. done.
Qed.

(** ** unwrap and expect *)

(** [unwrap] and [expect] where [JSON.stringify] returns.  On [ok(x)] both
    return [x] and raise nothing.  On [err(e)] both always raise, for
    every [e].  Whenever [JSON.stringify(e)] returns, what they raise is
    an [Error] whose message is, for [unwrap], the fixed literal followed
    by what [JSON.stringify(e)] returned and, for [expect], the caller's
    message, a colon and a space, followed by the same; the template
    literal prints a returned [undefined] as the word. *)
Theorem unwrap_expect_spec (x e : value) (message : string) (w : world) :
  (r ← ok x; unwrap r) w = (Returned x, extend w (Ok x))
  ∧ (r ← ok x; expect r message) w = (Returned x, extend w (Ok x))
  ∧ (∃ t, (r ← err e; unwrap r) w = (Thrown t, extend w (Err e)))
  ∧ (∃ t, (r ← err e; expect r message) w = (Thrown t, extend w (Err e)))
  ∧ (∀ s,
       JSON_stringify e (extend w (Err e)) = (Returned s, extend w (Err e)) →
       (r ← err e; unwrap r) w
       = (Thrown
            (Error ("Called unwrap on an Err value: " +:+ template_arg s)),
          extend w (Err e))
       ∧ (r ← err e; expect r message) w
         = (Thrown (Error (message +:+ ": " +:+ template_arg s)),
            extend w (Err e))).
Proof.
  assert ((r ← err e; unwrap r) w = err_unwrap e (extend w (Err e))) as Hu.
  { rewrite (bind_Returned _ _ _ _ _ (alloc_extend (Err e) w)).
    apply unwrap_on_err, lookup_extend_new. }
  assert ((r ← err e; expect r message) w
          = err_expect e message (extend w (Err e))) as He.
  { rewrite (bind_Returned _ _ _ _ _ (alloc_extend (Err e) w)).
    apply expect_on_err, lookup_extend_new. }
  split; [|split; [|split; [|split]]].
  - rewrite (bind_Returned _ _ _ _ _ (alloc_extend (Ok x) w)).
    apply unwrap_on_ok, lookup_extend_new.
  - rewrite (bind_Returned _ _ _ _ _ (alloc_extend (Ok x) w)).
    apply expect_on_ok, lookup_extend_new.
  - rewrite Hu, err_unwrap_throws. by eexists.
  - rewrite He, err_expect_throws. by eexists.
  - intros s Hs. rewrite Hu, He. unfold err_unwrap, err_expect.
    by rewrite !(bind_Returned _ _ _ _ _ Hs).
Qed.

Lemma unwrap_expect_spec_witness :
  (r ← err (VStr "something failed"); unwrap r) empty_world
  = (Thrown
       (Error ("Called unwrap on an Err value: "
               +:+ dquote +:+ "something failed" +:+ dquote)),
     extend empty_world (Err (VStr "something failed")))
  ∧ (r ← err (VStr "something failed"); expect r "User must exist")
      empty_world
    = (Thrown
         (Error ("User must exist: "
                 +:+ dquote +:+ "something failed" +:+ dquote)),
       extend empty_world (Err (VStr "something failed"))).
Proof.
  destruct (unwrap_expect_spec VNull (VStr "something failed")
              "User must exist" empty_world) as (_ & _ & _ & _ & H).
  apply (H (Some (dquote +:+ "something failed" +:+ dquote))).
  reflexivity.
Defined.

(** The runs the tests of the repository check: the rendering of a
    string error is the string in double quotes. *)
Example unwrap_test_run :
  (r ← err (VStr "something failed"); unwrap r) empty_world
  = (Thrown (Error ("Called unwrap on an Err value: "
                    +:+ dquote +:+ "something failed" +:+ dquote)),
     extend empty_world (Err (VStr "something failed"))).
Proof. reflexivity. Qed.

Example expect_test_run :
  (r ← err (VStr "not_found"); expect r "User must exist") empty_world
  = (Thrown (Error ("User must exist: "
                    +:+ dquote +:+ "not_found" +:+ dquote)),
     extend empty_world (Err (VStr "not_found"))).
Proof. reflexivity. Qed.

(** That the message [unwrap] raises is, for every error, the literal
    followed by a rendering of the error, fails on [err(1n)]: there
    [JSON.stringify] throws before any message is built, and what is
    raised is its [TypeError]. *)
Lemma unwrap_message_fails_on_bigint :
  ¬ ∃ rendering w',
      (r ← err (VBigInt 1); unwrap r) empty_world
      = (Thrown (Error ("Called unwrap on an Err value: " +:+ rendering)), w').
Proof.
  intros (rendering & w' & H). vm_compute in H. discriminate H.
Qed.

(** C2, at the inputs where the code departs from it.  On an Err that
    carries a BigInt, [unwrap] and [expect] do raise, but [JSON.stringify]
    throws while the message is being put together: what is raised is the
    host's [TypeError], and it is not an [Error] whose message starts
    with the fixed literal, respectively with the caller's message. *)
Theorem unwrap_expect_on_bigint_raise_the_hosts_TypeError
    (n : Z) (message : string) (w : world) :
  ((r ← err (VBigInt n); unwrap r) w
   = (Thrown (TypeError "Do not know how to serialize a BigInt"),
      extend w (Err (VBigInt n)))
   ∧ (r ← err (VBigInt n); expect r message) w
     = (Thrown (TypeError "Do not know how to serialize a BigInt"),
        extend w (Err (VBigInt n))))
  ∧ (∀ rendering w',
       (r ← err (VBigInt n); unwrap r) w
       ≠ (Thrown (Error ("Called unwrap on an Err value: " +:+ rendering)),
          w'))
  ∧ (∀ rendering w',
       (r ← err (VBigInt n); expect r message) w
       ≠ (Thrown (Error (message +:+ ": " +:+ rendering)), w')).
Proof.
  assert ((r ← err (VBigInt n); unwrap r) w
          = (Thrown (TypeError "Do not know how to serialize a BigInt"),
             extend w (Err (VBigInt n)))) as Hu.
  { rewrite (bind_Returned _ _ _ _ _ (alloc_extend (Err (VBigInt n)) w)).
    rewrite (unwrap_on_err _ _ (VBigInt n)) by apply lookup_extend_new.
    by rewrite err_unwrap_throws. }
  assert ((r ← err (VBigInt n); expect r message) w
          = (Thrown (TypeError "Do not know how to serialize a BigInt"),
             extend w (Err (VBigInt n)))) as He.
  { rewrite (bind_Returned _ _ _ _ _ (alloc_extend (Err (VBigInt n)) w)).
    rewrite (expect_on_err _ _ (VBigInt n)) by apply lookup_extend_new.
    by rewrite err_expect_throws. }
  split; [done|]. rewrite Hu, He.
  split; intros rendering w' H; discriminate H.
Qed.

(** ** Capturing a computation that may throw *)

(** [Result.try] by what the thunk does. *)
Lemma try_unfold (fn : M value) (w : world) :
  Result.try_ fn w
  = match fn w with
    | (Returned v, w') => ok v w'
    | (Thrown x, w') => err x w'
    end.
Proof.
  unfold Result.try_, try_catch, mbind, M_bind.
  by destruct (fn w) as [[v|x] w'].
Qed.

(** [Result.tryAsync] by what the thunk does: it throws before it returns
    a promise, or it returns one that fulfills, rejects or stays
    pending. *)
Lemma tryAsync_unfold (fn : M (Promise value)) (w : world) :
  Result.tryAsync fn w
  = match fn w with
    | (Thrown x, w') =>
        (Returned (Fulfilled (length (heap w'))), extend w' (Err x))
    | (Returned (Fulfilled v), w') =>
        (Returned (Fulfilled (length (heap w'))), extend w' (Ok v))
    | (Returned (Rejected reason), w') =>
        (Returned (Fulfilled (length (heap w'))), extend w' (Err reason))
    | (Returned Pending, w') => (Returned Pending, w')
    end.
Proof.
  unfold Result.tryAsync, async, async_try_catch, mbind, Async_bind, run, await.
  by destruct (fn w) as [[[v|reason|]|x] w'].
Qed.

(** C4.  [Result.try] runs its thunk once and never throws: it returns
    [ok] of what the thunk returned, or [err] of what the thunk threw.
    The call [Result.tryAsync] never throws and the promise it returns
    never rejects: when the thunk's promise settles, the promise
    fulfills, with [ok] of the value the thunk's promise fulfilled with
    or with [err] of the reason it rejected with; until then it is
    pending, as the thunk's promise is. *)
Theorem try_and_tryAsync_spec
    (fn : M value) (afn : M (Promise value)) (w : world) :
  Result.try_ fn w
  = match fn w with
    | (Returned v, w') => (Returned (length (heap w')), extend w' (Ok v))
    | (Thrown x, w') => (Returned (length (heap w')), extend w' (Err x))
    end
  ∧ Result.tryAsync afn w
    = match afn w with
      | (Returned (Fulfilled v), w') =>
          (Returned (Fulfilled (length (heap w'))), extend w' (Ok v))
      | (Returned (Rejected reason), w') =>
          (Returned (Fulfilled (length (heap w'))), extend w' (Err reason))
      | (Returned Pending, w') => (Returned Pending, w')
      | (Thrown x, w') =>
          (Returned (Fulfilled (length (heap w'))), extend w' (Err x))
      end
  ∧ (∀ x w', Result.try_ fn w ≠ (Thrown x, w'))
  ∧ (∀ x w', Result.tryAsync afn w ≠ (Thrown x, w'))
  ∧ (∀ reason w', Result.tryAsync afn w ≠ (Returned (Rejected reason), w')).
Proof.
  rewrite try_unfold, tryAsync_unfold.
  split; [by destruct (fn w) as [[v|x] w']|].
  split; [by destruct (afn w) as [[[v|reason|]|x] w']|].
  split; [|split].
  - intros x w'. by destruct (fn w) as [[v|y] w''].
  - intros x w'. by destruct (afn w) as [[[v|reason|]|y] w''].
  - intros reason w'. by destruct (afn w) as [[[v|reason'|]|y] w''].
Qed.

Lemma try_and_tryAsync_spec_witness :
  Result.try_ (mret (VNum 5)) empty_world
  = (Returned 0, extend empty_world (Ok (VNum 5)))
  ∧ Result.tryAsync (mret (Rejected (VStr "boom"))) empty_world
    = (Returned (Fulfilled 0), extend empty_world (Err (VStr "boom"))).
Proof.
  destruct (try_and_tryAsync_spec
              (mret (VNum 5)) (mret (Rejected (VStr "boom"))) empty_world)
    as (Htry & Hasync & _).
  split; [exact Htry|exact Hasync].
Defined.

(** C10. When the thunk throws before it has returned any promise,
    [Result.tryAsync] does not throw and the promise it returns does not
    reject: it fulfills with [err] of the thrown value, as it does for a
    promise that rejects with that value. *)
Theorem tryAsync_captures_synchronous_throw
    (fn : M (Promise value)) (w w' : world) (x : value) :
  fn w = (Thrown x, w') →
  Result.tryAsync fn w
  = (Returned (Fulfilled (length (heap w'))), extend w' (Err x))
  ∧ heap (extend w' (Err x)) !! length (heap w') = Some (Err x)
  ∧ Result.tryAsync fn w = Result.tryAsync (λ _, (Returned (Rejected x), w')) w.
Proof.
  intros H. rewrite !tryAsync_unfold, H. split; [done|]. split; [|done].
  apply lookup_extend_new.
Qed.

Lemma tryAsync_captures_synchronous_throw_witness :
  Result.tryAsync (throw (VStr "boom")) empty_world
  = (Returned (Fulfilled 0), extend empty_world (Err (VStr "boom"))).
Proof.
  apply (tryAsync_captures_synchronous_throw
           (throw (VStr "boom")) empty_world empty_world (VStr "boom")).
  reflexivity.
Defined.

(** ** The functor laws of map *)

Lemma observe_Returned (m : M ref) w r w' o :
  m w = (Returned r, w') → heap w' !! r = Some o →
  observe m w = Some (Returned o).
Proof. intros Hm Ho. unfold observe. by rewrite Hm, Ho. Qed.

Lemma map_pure_on_ok w r d f :
  heap w !! r = Some (Ok d) →
  map r (pure f) w = (Returned (length (heap w)), extend w (Ok (f d))).
Proof. intros H. by rewrite (map_on_ok _ _ d). Qed.

(** C8. Mapping the identity over a Result gives a Result the caller
    cannot tell from the first: the same variant with the same payload
    or error.  Mapping [f] and then [g] over [ok(x)] gives what mapping
    their composition gives: an Ok carrying [g (f x)]. *)
Theorem map_functor_laws :
  (∀ w r o,
     heap w !! r = Some o →
     observe (map r (pure (λ v, v))) w = Some (Returned o)
     ∧ observe (map r (pure (λ v, v))) w = observe (mret r) w)
  ∧ (∀ w x f g,
       observe (r ← ok x; r1 ← map r (pure f); map r1 (pure g)) w
       = observe (r ← ok x; map r (pure (λ v, g (f v)))) w
       ∧ observe (r ← ok x; map r (pure (λ v, g (f v)))) w
         = Some (Returned (Ok (g (f x))))).
Proof.
  split.
  - intros w r o H.
    assert (observe (map r (pure (λ v, v))) w = Some (Returned o)) as Hid.
    { destruct o as [d|e].
      + eapply observe_Returned; [by apply map_pure_on_ok|].
        apply lookup_extend_new.
      + eapply observe_Returned; [by apply map_on_err with e|done]. }
    split; [done|]. rewrite Hid. unfold observe. simpl. by rewrite H.
  - intros w x f g.
    assert (observe (r ← ok x; map r (pure (λ v, g (f v)))) w
            = Some (Returned (Ok (g (f x))))) as Hcomp.
    { eapply observe_Returned; [|apply lookup_extend_new].
      rewrite (bind_Returned _ _ _ _ _ (alloc_extend (Ok x) w)).
      apply (map_pure_on_ok _ _ x (λ v, g (f v))), lookup_extend_new. }
    split; [|done]. rewrite Hcomp.
    eapply observe_Returned; [|apply lookup_extend_new].
    rewrite (bind_Returned _ _ _ _ _ (alloc_extend (Ok x) w)).
    rewrite (bind_Returned _ _ _ _ _
               (map_pure_on_ok _ _ x f (lookup_extend_new w (Ok x)))).
    apply (map_pure_on_ok _ _ (f x) g), lookup_extend_new.
Qed.

Lemma map_functor_laws_witness :
  observe (map 0 (pure (λ v, v))) four_results = Some (Returned (Ok (VNum 1)))
  ∧ observe (map 1 (pure (λ v, v))) four_results
    = Some (Returned (Err (VStr "e1"))).
Proof.
  destruct map_functor_laws as [Hid _]. split.
  - apply (Hid four_results 0 (Ok (VNum 1))). reflexivity.
  - apply (Hid four_results 1 (Err (VStr "e1"))). reflexivity.
Defined.

(** ** No operation changes an object that exists *)

Create HintDb frame.

Lemma keeps_ret {A : Type} (a : A) : keeps_objects (mret a).
Proof. intros w. done. Qed.

Lemma keeps_throw {A : Type} (x : value) : keeps_objects (@throw A x).
Proof. intros w. done. Qed.

Lemma keeps_bind {A B : Type} (m : M A) (f : A → M B) :
  keeps_objects m → (∀ a, keeps_objects (f a)) → keeps_objects (m ≫= f).
Proof.
  intros Hm Hf w. specialize (Hm w). unfold mbind, M_bind.
  destruct (m w) as [[a|x] w']; simpl in *; [|done].
  etrans; [exact Hm|apply Hf].
Qed.

Lemma keeps_try_catch {A : Type} (body : M A) (handler : value → M A) :
  keeps_objects body → (∀ x, keeps_objects (handler x)) →
  keeps_objects (try_catch body handler).
Proof.
  intros Hm Hh w. specialize (Hm w). unfold try_catch.
  destruct (body w) as [[a|x] w']; simpl in *; [done|].
  etrans; [exact Hm|apply Hh].
Qed.

Lemma keeps_alloc o : keeps_objects (alloc o).
Proof. intros w. simpl. by apply prefix_app_r. Qed.

Lemma keeps_load r : keeps_objects (load r).
Proof. intros w. unfold load. by destruct (heap w !! r). Qed.

Lemma keeps_JSON_stringify v : keeps_objects (JSON_stringify v).
Proof. intros w. unfold JSON_stringify. by destruct (serialize v). Qed.

#[local] Hint Resolve keeps_ret keeps_throw keeps_bind keeps_try_catch
  keeps_alloc keeps_load keeps_JSON_stringify : frame.

(** A goal about an operation that is a chain of binds, once its
    definition is unfolded. *)
Ltac keeps :=
  repeat
    (first
       [ solve [auto with frame]
       | apply keeps_bind; [|intros ?]
       | apply keeps_try_catch; [|intros ?]
       | match goal with
         | |- keeps_objects (match ?o with Ok _ => _ | Err _ => _ end) =>
             destruct o
         | |- keeps_objects (if ?b then _ else _) => destruct b
         end ]).

Section keeps.
Variables (fn : callback) (next : chain).
Hypothesis fn_keeps : ∀ v, keeps_objects (fn v).
Hypothesis next_keeps : ∀ v, keeps_objects (next v).

Lemma keeps_ok d : keeps_objects (ok d).
Proof. apply keeps_alloc. Qed.

Lemma keeps_err e : keeps_objects (err e).
Proof. apply keeps_alloc. Qed.

Lemma keeps_isOk r : keeps_objects (isOk r).
Proof. unfold isOk, ok_isOk, err_isOk. keeps. Qed.

Lemma keeps_isErr r : keeps_objects (isErr r).
Proof. unfold isErr, ok_isErr, err_isErr. keeps. Qed.

Lemma keeps_get_data r : keeps_objects (get_data r).
Proof. unfold get_data. keeps. Qed.

Lemma keeps_get_error r : keeps_objects (get_error r).
Proof. unfold get_error. keeps. Qed.

Hint Resolve keeps_ok keeps_err keeps_isOk keeps_isErr keeps_get_data
  keeps_get_error fn_keeps next_keeps : frame.

Lemma keeps_map r : keeps_objects (map r fn).
Proof. unfold map, ok_map, err_map. keeps. Qed.

Lemma keeps_mapErr r : keeps_objects (mapErr r fn).
Proof. unfold mapErr, ok_mapErr, err_mapErr. keeps. Qed.

Lemma keeps_andThen r : keeps_objects (andThen r next).
Proof. unfold andThen, ok_andThen, err_andThen. keeps. Qed.

Lemma keeps_unwrapOr r defaultValue :
  keeps_objects (unwrapOr r defaultValue).
Proof. unfold unwrapOr, ok_unwrapOr, err_unwrapOr. keeps. Qed.

Lemma keeps_unwrap r : keeps_objects (unwrap r).
Proof. unfold unwrap, ok_unwrap, err_unwrap. keeps. Qed.

Lemma keeps_expect r message : keeps_objects (expect r message).
Proof. unfold expect, ok_expect, err_expect. keeps. Qed.

Lemma keeps_Result_map r : keeps_objects (Result.map r fn).
Proof. unfold Result.map. keeps. Qed.

Lemma keeps_Result_mapErr r : keeps_objects (Result.mapErr r fn).
Proof. unfold Result.mapErr. keeps. Qed.

Lemma keeps_Result_andThen r : keeps_objects (Result.andThen r next).
Proof. unfold Result.andThen. keeps. Qed.

Lemma keeps_Result_unwrapOr r defaultValue :
  keeps_objects (Result.unwrapOr r defaultValue).
Proof. unfold Result.unwrapOr. keeps. Qed.

Lemma keeps_Result_all results : keeps_objects (Result.all results).
Proof.
  unfold Result.all. generalize (@nil value) as values.
  induction results as [|r rest IH]; intros values; simpl; keeps.
Qed.

Lemma keeps_Result_collectErrors results :
  keeps_objects (Result.collectErrors results).
Proof.
  unfold Result.collectErrors. generalize (@nil value) as errors.
  induction results as [|r rest IH]; intros errors; simpl; keeps.
Qed.

Lemma keeps_Result_partition results :
  keeps_objects (Result.partition results).
Proof.
  unfold Result.partition.
  generalize (@nil value) at 1 as successes.
  generalize (@nil value) as errors.
  induction results as [|r rest IH]; intros errors successes; simpl; keeps.
Qed.

Lemma keeps_Result_try thunk :
  keeps_objects thunk → keeps_objects (Result.try_ thunk).
Proof. intros H. unfold Result.try_. keeps. Qed.

Lemma keeps_Result_tryAsync thunk :
  keeps_objects thunk → keeps_objects (Result.tryAsync thunk).
Proof.
  intros H w. specialize (H w). rewrite tryAsync_unfold.
  destruct (thunk w) as [[[v|reason|]|x] w']; simpl in *;
    try done; by apply prefix_app_r.
Qed.

(** On the side it acts on, [map] and [mapErr] end with [ok(...)] or
    [err(...)]: the Result they return is an object that did not exist
    when the call started. *)
Lemma map_on_ok_is_new w r d r' w' :
  heap w !! r = Some (Ok d) →
  map r fn w = (Returned r', w') →
  heap w !! r' = None ∧ r' ≠ r ∧ ∃ y, heap w' !! r' = Some (Ok y).
Proof.
  intros Hr. rewrite (map_on_ok _ _ d) by done.
  unfold mbind, M_bind. pose proof (fn_keeps d w) as Hpre.
  destruct (fn d w) as [[y|x] w1]; simpl in *; [|done].
  unfold ok. rewrite alloc_extend. intros [= <- <-].
  apply prefix_length in Hpre. apply lookup_lt_Some in Hr as Hlt.
  split; [apply lookup_ge_None; lia|]. split; [lia|].
  exists y. apply lookup_extend_new.
Qed.

Lemma mapErr_on_err_is_new w r e r' w' :
  heap w !! r = Some (Err e) →
  mapErr r fn w = (Returned r', w') →
  heap w !! r' = None ∧ r' ≠ r ∧ ∃ y, heap w' !! r' = Some (Err y).
Proof.
  intros Hr. rewrite (mapErr_on_err _ _ e) by done.
  unfold mbind, M_bind. pose proof (fn_keeps e w) as Hpre.
  destruct (fn e w) as [[y|x] w1]; simpl in *; [|done].
  unfold err. rewrite alloc_extend. intros [= <- <-].
  apply prefix_length in Hpre. apply lookup_lt_Some in Hr as Hlt.
  split; [apply lookup_ge_None; lia|]. split; [lia|].
  exists y. apply lookup_extend_new.
Qed.

End keeps.

(** C9, as the code has it.  No operation changes an object that exists
    when it is called: whatever it is given, the heap it ends with is the
    heap it started with, possibly followed by new objects (callbacks
    are client code, and are asked the same).  [map] on an Ok and
    [mapErr] on an Err return a newly built Result, at an address that
    held nothing before and so differs from the receiver.  The other
    branches build nothing: [map] and [andThen] on an Err and [mapErr]
    on an Ok return the receiver itself, and [andThen] on an Ok returns
    the Result its callback returned. *)
Theorem results_are_never_mutated :
  (∀ (fn : callback) (next : chain)
     (thunk : M value) (athunk : M (Promise value)),
     (∀ v, keeps_objects (fn v)) → (∀ v, keeps_objects (next v)) →
     keeps_objects thunk → keeps_objects athunk →
     ∀ (r : ref) (results : list ref) (v : value) (message : string),
       keeps_objects (ok v) ∧ keeps_objects (err v)
       ∧ keeps_objects (isOk r) ∧ keeps_objects (isErr r)
       ∧ keeps_objects (map r fn) ∧ keeps_objects (mapErr r fn)
       ∧ keeps_objects (andThen r next) ∧ keeps_objects (unwrapOr r v)
       ∧ keeps_objects (unwrap r) ∧ keeps_objects (expect r message)
       ∧ keeps_objects (Result.try_ thunk)
       ∧ keeps_objects (Result.tryAsync athunk)
       ∧ keeps_objects (Result.map r fn) ∧ keeps_objects (Result.mapErr r fn)
       ∧ keeps_objects (Result.andThen r next)
       ∧ keeps_objects (Result.unwrapOr r v)
       ∧ keeps_objects (Result.all results)
       ∧ keeps_objects (Result.unwrap r)
       ∧ keeps_objects (Result.expect r message)
       ∧ keeps_objects (Result.collectErrors results)
       ∧ keeps_objects (Result.partition results)
       ∧ keeps_objects (Result.isOk r) ∧ keeps_objects (Result.isErr r))
  ∧ (∀ (fn : callback) w r d r' w',
       (∀ v, keeps_objects (fn v)) →
       heap w !! r = Some (Ok d) →
       map r fn w = (Returned r', w') →
       heap w !! r' = None ∧ r' ≠ r ∧ ∃ y, heap w' !! r' = Some (Ok y))
  ∧ (∀ (fn : callback) w r e r' w',
       (∀ v, keeps_objects (fn v)) →
       heap w !! r = Some (Err e) →
       mapErr r fn w = (Returned r', w') →
       heap w !! r' = None ∧ r' ≠ r ∧ ∃ y, heap w' !! r' = Some (Err y))
  ∧ (∀ (fn : callback) (next : chain) w r e,
       heap w !! r = Some (Err e) →
       map r fn w = (Returned r, w) ∧ andThen r next w = (Returned r, w))
  ∧ (∀ (fn : callback) w r d,
       heap w !! r = Some (Ok d) → mapErr r fn w = (Returned r, w))
  ∧ (∀ (next : chain) w r d,
       heap w !! r = Some (Ok d) → andThen r next w = next d w).
Proof.
  split; [|split; [|split; [|split; [|split]]]].
  - intros fn next thunk athunk Hfn Hnext Hthunk Hathunk r results v message.
    repeat split.
    + apply keeps_ok.
    + apply keeps_err.
    + apply keeps_isOk.
    + apply keeps_isErr.
    + by apply keeps_map.
    + by apply keeps_mapErr.
    + by apply keeps_andThen.
    + apply keeps_unwrapOr.
    + apply keeps_unwrap.
    + apply keeps_expect.
    + by apply keeps_Result_try.
    + by apply keeps_Result_tryAsync.
    + by apply keeps_Result_map.
    + by apply keeps_Result_mapErr.
    + by apply keeps_Result_andThen.
    + apply keeps_Result_unwrapOr.
    + apply keeps_Result_all.
    + apply keeps_unwrap.
    + apply keeps_expect.
    + apply keeps_Result_collectErrors.
    + apply keeps_Result_partition.
    + apply keeps_isOk.
    + apply keeps_isErr.
  - intros fn w r d r' w' Hfn. by apply map_on_ok_is_new.
  - intros fn w r e r' w' Hfn. by apply mapErr_on_err_is_new.
  - intros fn next w r e H. split.
    + by apply map_on_err with e.
    + by apply andThen_on_err with e.
  - intros fn w r d H. by apply mapErr_on_ok with d.
  - intros next w r d H. by apply andThen_on_ok.
Qed.

Lemma results_are_never_mutated_witness :
  (heap four_results
     `prefix_of` heap (map 0 (pure (λ v, v)) four_results).2)
  ∧ (heap four_results !! 4 = None ∧ 4 ≠ 0
     ∧ ∃ y, heap (extend four_results (Ok (VNum 1))) !! 4 = Some (Ok y))
  ∧ map 1 (pure (λ v, v)) four_results = (Returned 1, four_results).
Proof.
  destruct results_are_never_mutated as (Hkeeps & Hnew & _ & Halias & _).
  split; [|split].
  - apply (Hkeeps (pure (λ v, v)) (λ v, mret 0) (mret VNull) (mret Pending));
      try (intros ?; apply keeps_ret); try apply keeps_ret;
      first [exact 0 | exact [] | exact VNull | exact ""].
  - apply (Hnew (pure (λ v, v)) four_results 0 (VNum 1)).
    + intros v. apply keeps_ret.
    + reflexivity.
    + reflexivity.
  - apply (Halias (pure (λ v, v)) (λ v, mret 0) four_results 1 (VStr "e1")).
    reflexivity.
Defined.

(** That every transformation returns a Result distinct from its input,
    on the no-op branches too, fails on [err("e").map(f)]: the Result
    returned is the input. *)
Lemma map_on_err_returns_its_input :
  ¬ (∀ r w r' w',
       err (VStr "e") empty_world = (Returned r, w) →
       map r (pure (λ v, v)) w = (Returned r', w') →
       r' ≠ r).
Proof.
  intros H.
  apply (H 0 (extend empty_world (Err (VStr "e")))
           0 (extend empty_world (Err (VStr "e")))); reflexivity.
Qed.

(** ** Runs from the test suite of the repository *)

(** [err("initial error").andThen(() => { executed = true; return ok(42) })]
    returns the Err and leaves [executed] unset. *)
Example andThen_on_err_does_not_run_the_callback :
  (r ← err (VStr "initial error");
   andThen r (λ _, set_global "executed" (VBool true);; ok (VNum 42)))
    empty_world
  = (Returned 0, World [Err (VStr "initial error")] ∅).
Proof. reflexivity. Qed.

(** The same callback on an Ok runs. *)
Example andThen_on_ok_runs_the_callback :
  (r ← ok (VNum 1);
   andThen r (λ _, set_global "executed" (VBool true);; ok (VNum 42)))
    empty_world
  = (Returned 1,
     World [Ok (VNum 1); Ok (VNum 42)] {["executed" := VBool true]}).
Proof. reflexivity. Qed.

Example map_chain_run :
  observe
    (r ← ok (VNum 5);
     r1 ← map r (pure (λ v, match v with VNum n => VNum (n * 2) | _ => v end));
     map r1 (pure (λ v, match v with VNum n => VNum (n + 1) | _ => v end)))
    empty_world
  = Some (Returned (Ok (VNum 11))).
Proof. reflexivity. Qed.

Example unwrapOr_run :
  (r ← ok (VNum 42); unwrapOr r (VNum 0)) empty_world
  = (Returned (VNum 42), World [Ok (VNum 42)] ∅)
  ∧ (r ← err (VStr "error"); unwrapOr r (VNum 0)) empty_world
    = (Returned (VNum 0), World [Err (VStr "error")] ∅).
Proof. split; reflexivity. Qed.

Example Result_all_first_error_run :
  (a ← ok (VNum 1); b ← err (VStr "e1"); c ← ok (VNum 3);
   d ← err (VStr "e2"); Result.all [a; b; c; d]) empty_world
  = (Returned 1, four_results).
Proof. reflexivity. Qed.

Example Result_all_success_run :
  observe
    (a ← ok (VNum 1); b ← ok (VNum 2); c ← ok (VNum 3); Result.all [a; b; c])
    empty_world
  = Some (Returned (Ok (VArr [VNum 1; VNum 2; VNum 3]))).
Proof. reflexivity. Qed.

Example Result_partition_run :
  Result.partition [0; 1; 2; 3] four_results
  = (Returned ([VNum 1; VNum 3], [VStr "e1"; VStr "e2"]), four_results)
  ∧ Result.partition [] empty_world = (Returned ([], []), empty_world).
Proof. split; reflexivity. Qed.

Example Result_try_run :
  observe (Result.try_ (mret (VNum 5))) empty_world
  = Some (Returned (Ok (VNum 5)))
  ∧ observe (Result.try_ (throw (VStr "boom"))) empty_world
    = Some (Returned (Err (VStr "boom"))).
Proof. split; reflexivity. Qed.

Example unwrap_on_object_error_run :
  (r ← err (VObject [("code", VNum 404); ("message", VStr "Not found")]);
   unwrap r) empty_world
  = (Thrown
       (Error ("Called unwrap on an Err value: {"
               +:+ dquote +:+ "code" +:+ dquote +:+ ":404,"
               +:+ dquote +:+ "message" +:+ dquote +:+ ":"
               +:+ dquote +:+ "Not found" +:+ dquote +:+ "}")),
     World [Err (VObject [("code", VNum 404); ("message", VStr "Not found")])]
       ∅).
Proof. reflexivity. Qed.

(** ** Further properties of the constructors and the methods *)

(** The variant of a Result is what its constructor made it, whatever it
    carries: [ok(x)] answers [isOk] with true and [isErr] with false for
    every [x], [null] and [undefined] included, [err(x)] the opposite;
    and on every Result the two answers are opposite, agree with the
    [success] field, and come without a throw or a change of the world. *)
Theorem variant_is_the_constructor (x : value) (w : world) :
  ((r ← ok x; isOk r) w = (Returned true, extend w (Ok x))
   ∧ (r ← ok x; isErr r) w = (Returned false, extend w (Ok x))
   ∧ (r ← err x; isOk r) w = (Returned false, extend w (Err x))
   ∧ (r ← err x; isErr r) w = (Returned true, extend w (Err x)))
  ∧ (∀ r o,
       heap w !! r = Some o →
       ∃ b, isOk r w = (Returned b, w)
            ∧ isErr r w = (Returned (negb b), w)
            ∧ b = success o).
Proof.
  split.
  - repeat split.
    + rewrite (bind_Returned _ _ _ _ _ (alloc_extend (Ok x) w)).
      apply (isOk_at _ _ (Ok x)), lookup_extend_new.
    + rewrite (bind_Returned _ _ _ _ _ (alloc_extend (Ok x) w)).
      apply (isErr_at _ _ (Ok x)), lookup_extend_new.
    + rewrite (bind_Returned _ _ _ _ _ (alloc_extend (Err x) w)).
      apply (isOk_at _ _ (Err x)), lookup_extend_new.
    + rewrite (bind_Returned _ _ _ _ _ (alloc_extend (Err x) w)).
      apply (isErr_at _ _ (Err x)), lookup_extend_new.
  - intros r o H. exists (success o).
    by rewrite (isOk_at _ _ _ H), (isErr_at _ _ _ H).
Qed.

Lemma variant_is_the_constructor_witness :
  ∃ b, isOk 1 four_results = (Returned b, four_results)
       ∧ isErr 1 four_results = (Returned (negb b), four_results)
       ∧ b = false.
Proof.
  destruct (variant_is_the_constructor VNull four_results) as [_ H].
  apply (H 1 (Err (VStr "e1"))). reflexivity.
Defined.

(** [map], [mapErr] and [andThen] do not catch: when the callback they run
    throws, the call throws the same value, in the world the callback
    left, and no Result is built.  Inside [Result.try] the same call gives
    [err] of the thrown value. *)
Theorem callback_throw_propagates
    (w w' : world) (r : ref) (d t : value) (fn : callback) (next : chain) :
  (heap w !! r = Some (Ok d) → fn d w = (Thrown t, w') →
   map r fn w = (Thrown t, w')
   ∧ Result.try_ (r' ← map r fn; unwrap r') w = err t w')
  ∧ (heap w !! r = Some (Err d) → fn d w = (Thrown t, w') →
     mapErr r fn w = (Thrown t, w')
     ∧ Result.try_ (r' ← mapErr r fn; unwrap r') w = err t w')
  ∧ (heap w !! r = Some (Ok d) → next d w = (Thrown t, w') →
     andThen r next w = (Thrown t, w')
     ∧ Result.try_ (r' ← andThen r next; unwrap r') w = err t w').
Proof.
  split; [|split]; intros Hr Hfn.
  - assert (map r fn w = (Thrown t, w')) as H.
    { rewrite (map_on_ok _ _ d) by done. by apply bind_Thrown. }
    split; [done|]. rewrite try_unfold.
    by rewrite (bind_Thrown _ _ _ _ _ H).
  - assert (mapErr r fn w = (Thrown t, w')) as H.
    { rewrite (mapErr_on_err _ _ d) by done. by apply bind_Thrown. }
    split; [done|]. rewrite try_unfold.
    by rewrite (bind_Thrown _ _ _ _ _ H).
  - assert (andThen r next w = (Thrown t, w')) as H.
    { by rewrite (andThen_on_ok _ _ d). }
    split; [done|]. rewrite try_unfold.
    by rewrite (bind_Thrown _ _ _ _ _ H).
Qed.

Lemma callback_throw_propagates_witness :
  map 0 (λ _, throw (VStr "boom")) four_results
  = (Thrown (VStr "boom"), four_results)
  ∧ Result.try_ (r' ← map 0 (λ _, throw (VStr "boom")); unwrap r')
      four_results
    = (Returned 4, extend four_results (Err (VStr "boom"))).
Proof.
  destruct (callback_throw_propagates four_results four_results 0 (VNum 1)
              (VStr "boom") (λ _, throw (VStr "boom")) (λ _, mret 0))
    as [H _].
  apply H; reflexivity.
Defined.

(** [map] is [andThen] with a callback that wraps in [ok]: on every
    receiver, [r.map(fn)] and [r.andThen(x => ok(fn(x)))] return the same
    Result, throw the same value and leave the same world. *)
Theorem map_is_andThen_ok (r : ref) (fn : callback) (w : world) :
  map r fn w = andThen r (λ x, y ← fn x; ok y) w
  ∧ Result.map r fn w = Result.andThen r (λ x, y ← fn x; ok y) w.
Proof.
  assert (map r fn w = andThen r (λ x, y ← fn x; ok y) w) as H.
  { unfold map, andThen. destruct (heap w !! r) as [[d|e]|] eqn:Hr.
    - by on_object Hr.
    - by on_object Hr.
    - by rewrite !(bind_Thrown _ _ _ _ _ (load_dangling _ _ Hr)). }
  split; [done|].
  by rewrite Result_map_is_map, Result_andThen_is_andThen.
Qed.

(** [andThen] is associative: chaining [f] and then [g] on a Result is
    chaining, once, the callback that runs [f] and chains [g] on what [f]
    returns.  Both sides return the same Result, throw the same value and
    leave the same world, on every receiver. *)
Theorem andThen_assoc (r : ref) (f g : chain) (w : world) :
  (r1 ← andThen r f; andThen r1 g) w
  = andThen r (λ x, r1 ← f x; andThen r1 g) w.
Proof.
  destruct (heap w !! r) as [[d|e]|] eqn:Hr.
  - rewrite (andThen_on_ok _ _ d _ Hr). unfold mbind, M_bind.
    by rewrite (andThen_on_ok _ _ d _ Hr).
  - rewrite (bind_Returned _ _ _ _ _ (andThen_on_err _ _ e f Hr)).
    by rewrite !(andThen_on_err _ _ e _ Hr).
  - unfold andThen.
    by rewrite !(bind_Thrown _ _ _ _ _ (load_dangling _ _ Hr)),
      (bind_Thrown _ _ _ _ _
         (bind_Thrown _ _ _ _ _ (load_dangling _ _ Hr))).
Qed.

(** The identities of [andThen]: [ok(x).andThen(f)] is [f(x)], run in the
    world [ok(x)] left; and [r.andThen(ok)] is a Result of the same
    variant carrying the same payload or error as [r]. *)
Theorem andThen_identities :
  (∀ x (f : chain) w, (r ← ok x; andThen r f) w = f x (extend w (Ok x)))
  ∧ (∀ w r o,
       heap w !! r = Some o →
       observe (andThen r ok) w = Some (Returned o)
       ∧ observe (andThen r ok) w = observe (mret r) w).
Proof.
  split.
  - intros x f w. rewrite (bind_Returned _ _ _ _ _ (alloc_extend (Ok x) w)).
    apply andThen_on_ok, lookup_extend_new.
  - intros w r o H.
    assert (observe (andThen r ok) w = Some (Returned o)) as Hobs.
    { destruct o as [d|e].
      + eapply observe_Returned; [|apply lookup_extend_new].
        rewrite (andThen_on_ok _ _ d) by done. apply alloc_extend.
      + eapply observe_Returned; [by apply andThen_on_err with e|done]. }
    split; [done|]. rewrite Hobs. unfold observe. simpl. by rewrite H.
Qed.

Lemma andThen_identities_witness :
  observe (andThen 2 ok) four_results = Some (Returned (Ok (VNum 3)))
  ∧ observe (andThen 3 ok) four_results = Some (Returned (Err (VStr "e2"))).
Proof.
  destruct andThen_identities as [_ H]. split.
  - apply (H four_results 2 (Ok (VNum 3))). reflexivity.
  - apply (H four_results 3 (Err (VStr "e2"))). reflexivity.
Defined.

Lemma mapErr_pure_on_err w r e f :
  heap w !! r = Some (Err e) →
  mapErr r (pure f) w = (Returned (length (heap w)), extend w (Err (f e))).
Proof. intros H. by rewrite (mapErr_on_err _ _ e). Qed.

(** The functor laws of [mapErr], on the error side: mapping the identity
    over the error gives a Result of the same variant with the same
    payload or error, and mapping [f] and then [g] over [err(e)] gives
    what mapping their composition gives, an Err carrying [g (f e)]. *)
Theorem mapErr_functor_laws :
  (∀ w r o,
     heap w !! r = Some o →
     observe (mapErr r (pure (λ v, v))) w = Some (Returned o))
  ∧ (∀ w e f g,
       observe (r ← err e; r1 ← mapErr r (pure f); mapErr r1 (pure g)) w
       = observe (r ← err e; mapErr r (pure (λ v, g (f v)))) w
       ∧ observe (r ← err e; mapErr r (pure (λ v, g (f v)))) w
         = Some (Returned (Err (g (f e))))).
Proof.
  split.
  - intros w r [d|e] H.
    + eapply observe_Returned; [by apply mapErr_on_ok with d|done].
    + eapply observe_Returned; [|apply lookup_extend_new].
      by apply (mapErr_pure_on_err _ _ e (λ v, v)).
  - intros w e f g.
    assert (observe (r ← err e; mapErr r (pure (λ v, g (f v)))) w
            = Some (Returned (Err (g (f e))))) as Hcomp.
    { eapply observe_Returned; [|apply lookup_extend_new].
      rewrite (bind_Returned _ _ _ _ _ (alloc_extend (Err e) w)).
      apply (mapErr_pure_on_err _ _ e (λ v, g (f v))), lookup_extend_new. }
    split; [|done]. rewrite Hcomp.
    eapply observe_Returned; [|apply lookup_extend_new].
    rewrite (bind_Returned _ _ _ _ _ (alloc_extend (Err e) w)).
    rewrite (bind_Returned _ _ _ _ _
               (mapErr_pure_on_err _ _ e f (lookup_extend_new w (Err e)))).
    apply (mapErr_pure_on_err _ _ (f e) g), lookup_extend_new.
Qed.

Lemma mapErr_functor_laws_witness :
  observe (mapErr 1 (pure (λ v, v))) four_results
  = Some (Returned (Err (VStr "e1"))).
Proof.
  destruct mapErr_functor_laws as [H _].
  apply (H four_results 1 (Err (VStr "e1"))). reflexivity.
Defined.

(** [map] and [mapErr] act on opposite sides and commute: in either order
    they give an Ok carrying [f] of the payload, or an Err carrying [g]
    of the error.  Neither ever changes the variant. *)
Theorem map_and_mapErr_commute (w : world) (r : ref) (o : object)
    (f g : value → value) :
  heap w !! r = Some o →
  observe (r1 ← map r (pure f); mapErr r1 (pure g)) w
  = Some (Returned match o with Ok d => Ok (f d) | Err e => Err (g e) end)
  ∧ observe (r1 ← mapErr r (pure g); map r1 (pure f)) w
    = Some (Returned match o with Ok d => Ok (f d) | Err e => Err (g e) end).
Proof.
  intros H. destruct o as [d|e]; split.
  - eapply observe_Returned; [|apply lookup_extend_new].
    rewrite (bind_Returned _ _ _ _ _ (map_pure_on_ok _ _ d f H)).
    apply mapErr_on_ok with (f d), lookup_extend_new.
  - eapply observe_Returned; [|apply lookup_extend_new].
    rewrite (bind_Returned _ _ _ _ _ (mapErr_on_ok _ _ d (pure g) H)).
    by apply map_pure_on_ok.
  - eapply observe_Returned; [|apply lookup_extend_new].
    rewrite (bind_Returned _ _ _ _ _ (map_on_err _ _ e (pure f) H)).
    by apply mapErr_pure_on_err.
  - eapply observe_Returned; [|apply lookup_extend_new].
    rewrite (bind_Returned _ _ _ _ _ (mapErr_pure_on_err _ _ e g H)).
    apply map_on_err with (g e), lookup_extend_new.
Qed.

Lemma map_and_mapErr_commute_witness :
  observe (r1 ← map 0 (pure (λ _, VNull)); mapErr r1 (pure (λ _, VNull)))
    four_results
  = Some (Returned (Ok VNull))
  ∧ observe (r1 ← mapErr 0 (pure (λ _, VNull)); map r1 (pure (λ _, VNull)))
      four_results
    = Some (Returned (Ok VNull)).
Proof.
  apply (map_and_mapErr_commute four_results 0 (Ok (VNum 1))
           (λ _, VNull) (λ _, VNull)).
  reflexivity.
Defined.

(** [unwrapOr] never throws and never changes the world.  It returns the
    payload of an Ok and the default on an Err: the value [unwrap]
    returns whenever [unwrap] returns, the default exactly when [unwrap]
    throws. *)
Theorem unwrapOr_is_unwrap_or_the_default
    (w : world) (r : ref) (o : object) (defaultValue : value) :
  heap w !! r = Some o →
  unwrapOr r defaultValue w
  = (Returned (if success o then data o else defaultValue), w)
  ∧ (∀ v w', unwrap r w = (Returned v, w') →
             unwrapOr r defaultValue w = (Returned v, w))
  ∧ (∀ t w', unwrap r w = (Thrown t, w') →
             unwrapOr r defaultValue w = (Returned defaultValue, w)).
Proof.
  intros H. unfold unwrapOr. on_object H. destruct o as [d|e]; simpl.
  - rewrite (unwrap_on_ok _ _ d H). split; [done|].
    split; [by intros v w' [= <- <-]|by intros t w' [=]].
  - rewrite (unwrap_on_err _ _ e H), err_unwrap_throws. split; [done|].
    split; [by intros v w' [=]|done].
Qed.

Lemma unwrapOr_is_unwrap_or_the_default_witness :
  unwrapOr 0 (VNum 7) four_results = (Returned (VNum 1), four_results)
  ∧ unwrapOr 1 (VNum 7) four_results = (Returned (VNum 7), four_results).
Proof.
  split.
  - apply (unwrapOr_is_unwrap_or_the_default
             four_results 0 (Ok (VNum 1)) (VNum 7)).
    reflexivity.
  - apply (unwrapOr_is_unwrap_or_the_default
             four_results 1 (Err (VStr "e1")) (VNum 7)).
    reflexivity.
Defined.

(** ** Capturing and releasing *)

(** [Result.try] followed by [unwrap] gives back what the thunk returned;
    followed by [unwrapOr] it never throws and gives the thunk's value,
    or the default when the thunk threw.  When the thunk threw, [unwrap]
    throws as [unwrap] on an Err of the thrown value does. *)
Theorem try_then_unwrap (thunk : M value) (defaultValue : value) (w : world) :
  (r ← Result.try_ thunk; unwrap r) w
  = match thunk w with
    | (Returned v, w') => (Returned v, extend w' (Ok v))
    | (Thrown x, w') => err_unwrap x (extend w' (Err x))
    end
  ∧ (r ← Result.try_ thunk; unwrapOr r defaultValue) w
    = match thunk w with
      | (Returned v, w') => (Returned v, extend w' (Ok v))
      | (Thrown x, w') => (Returned defaultValue, extend w' (Err x))
      end.
Proof.
  destruct (thunk w) as [[v|x] w'] eqn:Hthunk.
  - assert (Result.try_ thunk w
            = (Returned (length (heap w')), extend w' (Ok v))) as Htry.
    { by rewrite try_unfold, Hthunk. }
    rewrite !(bind_Returned _ _ _ _ _ Htry).
    pose proof (lookup_extend_new w' (Ok v)) as H.
    rewrite (unwrap_on_ok _ _ v H).
    by destruct (unwrapOr_is_unwrap_or_the_default _ _ _ defaultValue H)
      as [-> _].
  - assert (Result.try_ thunk w
            = (Returned (length (heap w')), extend w' (Err x))) as Htry.
    { by rewrite try_unfold, Hthunk. }
    rewrite !(bind_Returned _ _ _ _ _ Htry).
    pose proof (lookup_extend_new w' (Err x)) as H.
    rewrite (unwrap_on_err _ _ x H).
    by destruct (unwrapOr_is_unwrap_or_the_default _ _ _ defaultValue H)
      as [-> _].
Qed.

(** [Result.tryAsync] on an [async] thunk is a [try] and [catch] around
    the thunk's body, whether the body awaits before it returns or throws
    or not: the promise fulfills with [ok] of what the body returns and
    with [err] of what the body throws, and is pending while the body is
    suspended.  For a body that does not await, that is what
    [Result.try] on the body returns. *)
Theorem tryAsync_of_async_is_try
    (body : Async value) (thunk : M value) (w : world) :
  Result.tryAsync (async body) w
  = async
      (async_try_catch (v ← body; run (ok v)) (λ error, run (err error))) w
  ∧ Result.tryAsync (async body) w
    = match body w with
      | (Completes (Returned v), w') =>
          (Returned (Fulfilled (length (heap w'))), extend w' (Ok v))
      | (Completes (Thrown x), w') =>
          (Returned (Fulfilled (length (heap w'))), extend w' (Err x))
      | (Suspended, w') => (Returned Pending, w')
      end
  ∧ Result.tryAsync (async (run thunk)) w
    = (r ← Result.try_ thunk; mret (Fulfilled r)) w.
Proof.
  split; [|split].
  - rewrite tryAsync_unfold.
    unfold async, async_try_catch, mbind, Async_bind, run.
    by destruct (body w) as [[[v|x]|] w'].
  - rewrite tryAsync_unfold. unfold async.
    by destruct (body w) as [[[v|x]|] w'].
  - rewrite tryAsync_unfold. unfold mbind, M_bind. rewrite try_unfold.
    unfold async, run. by destruct (thunk w) as [[v|x] w'].
Qed.

(** ** The three array utilities against each other *)

Lemma all_loop_by_failures w results objs values :
  denotes w results objs →
  match failures objs with
  | [] => Result.all_loop results values w
          = ok (VArr (values ++ payloads objs)) w
  | e :: _ => ∃ r, r ∈ results ∧ heap w !! r = Some (Err e)
                   ∧ Result.all_loop results values w = (Returned r, w)
  end.
Proof.
  intros H. revert values.
  induction H as [|r o results objs Hr _ IH]; intros values; simpl.
  - by rewrite app_nil_r.
  - destruct o as [d|e]; simpl.
    + specialize (IH (values ++ [d])).
      destruct (failures objs) as [|e rest].
      * on_object Hr. by rewrite IH, <- app_assoc.
      * destruct IH as (r' & Hin & Hr' & Hrun). exists r'.
        split; [by right|]. split; [done|]. by on_object Hr.
    + exists r. split; [by left|]. split; [done|]. by on_object Hr.
Qed.

(** On one array the three utilities agree.  The errors
    [Result.collectErrors] returns are the second component
    [Result.partition] returns.  When there is none, [Result.all] returns
    [ok] of the first component of [Result.partition]; when there is one,
    [Result.all] returns an element of the array, which is an Err
    carrying the first of these errors. *)
Theorem all_partition_collectErrors_agree (w : world) results objs :
  denotes w results objs →
  ∃ successes errors,
    Result.partition results w = (Returned (successes, errors), w)
    ∧ Result.collectErrors results w = (Returned errors, w)
    ∧ match errors with
      | [] => Result.all results w = ok (VArr successes) w
      | e :: _ => ∃ r, r ∈ results ∧ heap w !! r = Some (Err e)
                       ∧ Result.all results w = (Returned r, w)
      end.
Proof.
  intros H. exists (payloads objs), (failures objs).
  split; [|split].
  - unfold Result.partition. by rewrite (partition_loop_spec w results objs).
  - unfold Result.collectErrors.
    by rewrite (collectErrors_loop_spec w results objs).
  - apply (all_loop_by_failures w results objs [] H).
Qed.

Lemma all_partition_collectErrors_agree_witness :
  ∃ successes errors,
    Result.partition [0; 1; 2; 3] four_results
    = (Returned (successes, errors), four_results)
    ∧ Result.collectErrors [0; 1; 2; 3] four_results
      = (Returned errors, four_results)
    ∧ match errors with
      | [] => Result.all [0; 1; 2; 3] four_results
              = ok (VArr successes) four_results
      | e :: _ => ∃ r, r ∈ [0; 1; 2; 3]
                       ∧ heap four_results !! r = Some (Err e)
                       ∧ Result.all [0; 1; 2; 3] four_results
                         = (Returned r, four_results)
      end.
Proof.
  apply (all_partition_collectErrors_agree four_results [0; 1; 2; 3]
           [Ok (VNum 1); Err (VStr "e1"); Ok (VNum 3); Err (VStr "e2")]).
  by repeat constructor.
Defined.

(** The utilities on an array made of two parts.  [Result.collectErrors]
    and [Result.partition] give, component by component, what they give
    on the first part followed by what they give on the second; and when
    [Result.all] returns an Err on the first part it returns that Err on
    the whole, whatever the second part is. *)
Theorem utilities_on_concatenation (w : world) first second objs1 objs2 :
  denotes w first objs1 →
  denotes w second objs2 →
  (∀ e1 e2,
     Result.collectErrors first w = (Returned e1, w) →
     Result.collectErrors second w = (Returned e2, w) →
     Result.collectErrors (first ++ second) w = (Returned (e1 ++ e2), w))
  ∧ (∀ s1 e1 s2 e2,
       Result.partition first w = (Returned (s1, e1), w) →
       Result.partition second w = (Returned (s2, e2), w) →
       Result.partition (first ++ second) w
       = (Returned (s1 ++ s2, e1 ++ e2), w))
  ∧ (∀ r e anything,
       Result.all first w = (Returned r, w) →
       heap w !! r = Some (Err e) →
       Result.all (first ++ anything) w = (Returned r, w)).
Proof.
  intros H1 H2.
  assert (denotes w (first ++ second) (objs1 ++ objs2)) as H12.
  { by apply Forall2_app. }
  split; [|split].
  - intros e1 e2. unfold Result.collectErrors.
    rewrite (collectErrors_loop_spec w _ _ [] H1),
      (collectErrors_loop_spec w _ _ [] H2),
      (collectErrors_loop_spec w _ _ [] H12).
    intros [= <-] [= <-]. unfold failures. by rewrite omap_app.
  - intros s1 e1 s2 e2. unfold Result.partition.
    rewrite (partition_loop_spec w _ _ [] [] H1),
      (partition_loop_spec w _ _ [] [] H2),
      (partition_loop_spec w _ _ [] [] H12).
    intros [= <- <-] [= <- <-]. unfold payloads, failures.
    by rewrite !omap_app.
  - intros r e anything Hrun Hr.
    destruct (first_err_or_all_ok w first objs1 H1)
      as [(pre & r' & e' & rest & -> & Hpre & Hr')|[ds Hds]].
    + unfold Result.all in *.
      rewrite (all_loop_first_err w pre r' e' rest [] Hpre Hr') in Hrun.
      injection Hrun as <-. rewrite <- app_assoc. simpl.
      by apply all_loop_first_err with e'.
    + exfalso. unfold Result.all in Hrun.
      rewrite (all_loop_all_ok w first ds [] Hds) in Hrun.
      unfold ok in Hrun. rewrite alloc_extend in Hrun.
      injection Hrun as <- Hw. apply lookup_lt_Some in Hr. lia.
Qed.

Lemma utilities_on_concatenation_witness :
  Result.collectErrors ([0; 1] ++ [2; 3]) four_results
  = (Returned ([VStr "e1"] ++ [VStr "e2"]), four_results).
Proof.
  destruct (utilities_on_concatenation four_results [0; 1] [2; 3]
              [Ok (VNum 1); Err (VStr "e1")] [Ok (VNum 3); Err (VStr "e2")])
    as [H _].
  - by repeat constructor.
  - by repeat constructor.
  - apply H; reflexivity.
Defined.

(** ** Method chains *)

(** An Err goes through any chain of [map] and [andThen] calls as it is:
    the chain returns the Err it started from, runs none of its callbacks
    and changes nothing.  In the same way an Ok goes through any chain of
    [mapErr] calls. *)
Theorem method_chain_skips_the_other_side (w : world) (r : ref) links :
  (∀ e,
     heap w !! r = Some (Err e) →
     forallb (λ l, negb (acts_on_errors l)) links = true →
     method_chain r links w = (Returned r, w))
  ∧ (∀ d,
       heap w !! r = Some (Ok d) →
       forallb acts_on_errors links = true →
       method_chain r links w = (Returned r, w)).
Proof.
  split.
  - intros e Hr. induction links as [|l links IH]; simpl; [done|].
    intros [Hl Hlinks]%andb_prop.
    destruct l as [fn|fn|next]; simpl in *; [|done|].
    + rewrite (bind_Returned _ _ _ _ _ (map_on_err _ _ e fn Hr)). by apply IH.
    + rewrite (bind_Returned _ _ _ _ _ (andThen_on_err _ _ e next Hr)).
      by apply IH.
  - intros d Hr. induction links as [|l links IH]; simpl; [done|].
    intros [Hl Hlinks]%andb_prop.
    destruct l as [fn|fn|next]; simpl in *; [done| |done].
    rewrite (bind_Returned _ _ _ _ _ (mapErr_on_ok _ _ d fn Hr)). by apply IH.
Qed.

Lemma method_chain_skips_the_other_side_witness :
  method_chain 1
    [MapLink (λ _, throw VNull); AndThenLink (λ _, throw VNull)] four_results
  = (Returned 1, four_results).
Proof.
  destruct (method_chain_skips_the_other_side four_results 1
              [MapLink (λ _, throw VNull); AndThenLink (λ _, throw VNull)])
    as [H _].
  apply (H (VStr "e1")); reflexivity.
Defined.

(** A chain of [map] calls with pure callbacks on an Ok gives an Ok that
    carries the payload with the callbacks applied in order, which is
    what a single [map] with their composition gives. *)
Theorem map_chain_is_map_of_composition
    (fs : list (value → value)) (w : world) (r : ref) (d : value) :
  heap w !! r = Some (Ok d) →
  observe (method_chain r ((λ f, MapLink (pure f)) <$> fs)) w
  = Some (Returned (Ok (foldl (λ acc f, f acc) d fs)))
  ∧ observe (map r (pure (λ x, foldl (λ acc f, f acc) x fs))) w
    = Some (Returned (Ok (foldl (λ acc f, f acc) d fs))).
Proof.
  intros Hr. split.
  - revert w r d Hr. induction fs as [|f fs IH]; intros w r d Hr; simpl.
    + unfold observe. simpl. by rewrite Hr.
    + unfold observe.
      rewrite (bind_Returned _ _ _ _ _ (map_pure_on_ok _ _ d f Hr)).
      apply (IH (extend w (Ok (f d))) (length (heap w)) (f d)).
      apply lookup_extend_new.
  - eapply observe_Returned; [|apply lookup_extend_new].
    by apply (map_pure_on_ok _ _ d (λ x, foldl (λ acc f, f acc) x fs)).
Qed.

Lemma map_chain_is_map_of_composition_witness :
  observe
    (method_chain 0
       ((λ f, MapLink (pure f)) <$> [λ _, VNum 2; λ v, VArr [v]]))
    four_results
  = Some (Returned (Ok (VArr [VNum 2]))).
Proof.
  apply (map_chain_is_map_of_composition
           [λ _, VNum 2; λ v, VArr [v]] four_results 0 (VNum 1)).
  reflexivity.
Defined.

(** ** Batch processing *)

Lemma processNumber_builds n w :
  processNumber n w = (Returned (length (heap w)), extend w (processed n)).
Proof. unfold processNumber, processed. by destruct (decide (n < 0)%Z). Qed.

Lemma Array_map_processNumber numbers w :
  Array_map numbers processNumber w
  = (Returned (seq (length (heap w)) (length numbers)),
     World (heap w ++ (processed <$> numbers)) (globals w)).
Proof.
  revert w. induction numbers as [|n numbers IH]; intros w; simpl.
  - unfold mret, M_ret. rewrite app_nil_r. by destruct w.
  - rewrite (bind_Returned _ _ _ _ _ (processNumber_builds n w)).
    rewrite (bind_Returned _ _ _ _ _ (IH (extend w (processed n)))).
    unfold mret, M_ret. simpl. rewrite length_app, <- app_assoc. simpl.
    by replace (length (heap w) + 1) with (S (length (heap w))) by lia.
Qed.

Lemma denotes_new_objects w objs :
  denotes (World (heap w ++ objs) (globals w))
    (seq (length (heap w)) (length objs)) objs.
Proof.
  apply Forall2_same_length_lookup_2; [by rewrite length_seq|].
  intros i r o [-> Hi]%lookup_seq Ho. simpl.
  by rewrite lookup_app_r, Nat.add_comm, Nat.add_sub by lia.
Qed.

Lemma payloads_cons o objs :
  payloads (o :: objs)
  = match o with Ok d => d :: payloads objs | Err _ => payloads objs end.
Proof. by destruct o. Qed.

Lemma failures_cons o objs :
  failures (o :: objs)
  = match o with Ok _ => failures objs | Err e => e :: failures objs end.
Proof. by destruct o. Qed.

Lemma payloads_processed numbers :
  payloads (processed <$> numbers)
  = (λ n, VNum (n * 2)) <$> filter (λ n, 0 ≤ n)%Z numbers.
Proof.
  induction numbers as [|n numbers IH]; [done|].
  rewrite filter_cons, fmap_cons, payloads_cons, IH. unfold processed.
  by destruct (decide (n < 0)%Z), (decide (0 ≤ n)%Z); try lia.
Qed.

Lemma failures_processed numbers :
  failures (processed <$> numbers)
  = (λ n, VStr ("Negative number: " +:+ pretty n))
      <$> filter (λ n, n < 0)%Z numbers.
Proof.
  induction numbers as [|n numbers IH]; [done|].
  rewrite filter_cons, fmap_cons, failures_cons, IH. unfold processed.
  by destruct (decide (n < 0)%Z).
Qed.

(** The batch-processing test, for every array of safe integers.  After
    [numbers.map(processNumber)], [Result.partition] returns the doubles
    of the numbers that are not negative and the messages of the negative
    ones, each in the order of the array; [Result.all] returns [ok] of
    the array of all the doubles when no number is negative, and otherwise
    the Err built for the first negative number. *)
Theorem batch_processing (numbers : list Z) (w : world) :
  Forall safe_integer numbers →
  (results ← Array_map numbers processNumber; Result.partition results) w
  = (Returned
       ((λ n, VNum (n * 2)) <$> filter (λ n, 0 ≤ n)%Z numbers,
        (λ n, VStr ("Negative number: " +:+ pretty n))
          <$> filter (λ n, n < 0)%Z numbers),
     World (heap w ++ (processed <$> numbers)) (globals w))
  ∧ (Forall (λ n, 0 ≤ n)%Z numbers →
     observe (results ← Array_map numbers processNumber; Result.all results) w
     = Some (Returned (Ok (VArr ((λ n, VNum (n * 2)) <$> numbers)))))
  ∧ (∀ pre n rest,
       numbers = pre ++ n :: rest →
       Forall (λ n, 0 ≤ n)%Z pre → (n < 0)%Z →
       observe
         (results ← Array_map numbers processNumber; Result.all results) w
       = Some (Returned (Err (VStr ("Negative number: " +:+ pretty n))))).
Proof.
  intros _.
  pose proof (denotes_new_objects w (processed <$> numbers)) as Hden.
  rewrite length_fmap in Hden.
  split; [|split].
  - rewrite (bind_Returned _ _ _ _ _ (Array_map_processNumber numbers w)).
    unfold Result.partition.
    rewrite (partition_loop_spec _ _ _ [] [] Hden). simpl.
    by rewrite payloads_processed, failures_processed.
  - intros Hpos. unfold observe.
    rewrite (bind_Returned _ _ _ _ _ (Array_map_processNumber numbers w)).
    pose proof (all_loop_by_failures _ _ _ [] Hden) as Hall.
    rewrite failures_processed in Hall.
    replace (filter (λ n, n < 0)%Z numbers) with (@nil Z) in Hall.
    + simpl in Hall. unfold Result.all. rewrite Hall.
      unfold ok. rewrite alloc_extend, lookup_extend_new.
      rewrite payloads_processed.
      replace (filter (λ n, 0 ≤ n)%Z numbers) with numbers; [done|].
      clear -Hpos. induction Hpos as [|n numbers Hn _ IH]; [done|].
      rewrite filter_cons. destruct (decide (0 ≤ n)%Z); [|lia].
      by rewrite <- IH.
    + clear -Hpos. induction Hpos as [|n numbers Hn _ IH]; [done|].
      rewrite filter_cons. destruct (decide (n < 0)%Z); [lia|done].
  - intros pre n rest -> Hpre Hn. unfold observe.
    rewrite (bind_Returned _ _ _ _ _ (Array_map_processNumber _ w)).
    pose proof (all_loop_by_failures _ _ _ [] Hden) as Hall.
    rewrite failures_processed in Hall.
    replace (filter (λ n, n < 0)%Z (pre ++ n :: rest))
      with (n :: filter (λ n, n < 0)%Z rest) in Hall.
    + simpl in Hall. destruct Hall as (r & _ & Hr & Hrun).
      unfold Result.all. rewrite Hrun. simpl in *. by rewrite Hr.
    + rewrite filter_app, filter_cons.
      destruct (decide (n < 0)%Z); [|lia].
      replace (filter (λ n, n < 0)%Z pre) with (@nil Z); [done|].
      clear -Hpre. induction Hpre as [|m pre Hm _ IH]; [done|].
      rewrite filter_cons. destruct (decide (m < 0)%Z); [lia|done].
Qed.

Lemma batch_processing_witness :
  (results ← Array_map [1; 2; -3; 4; 5]%Z processNumber;
   Result.partition results) empty_world
  = (Returned
       ([VNum 2; VNum 4; VNum 8; VNum 10], [VStr "Negative number: -3"]),
     World [Ok (VNum 2); Ok (VNum 4); Err (VStr "Negative number: -3");
            Ok (VNum 8); Ok (VNum 10)] ∅).
Proof.
  destruct (batch_processing [1; 2; -3; 4; 5]%Z empty_world) as [H _].
  - repeat constructor; unfold safe_integer; lia.
  - exact H.
Defined.

(** ** Result.all and unwrap *)

Lemma Array_map_unwrap_all_ok w results ds :
  Forall2 (λ r d, heap w !! r = Some (Ok d)) results ds →
  Array_map results unwrap w = (Returned ds, w).
Proof.
  induction 1 as [|r d results ds Hr _ IH]; [done|]. simpl.
  rewrite (bind_Returned _ _ _ _ _ (unwrap_on_ok _ _ d Hr)).
  by rewrite (bind_Returned _ _ _ _ _ IH).
Qed.

Lemma Array_map_unwrap_first_err w pre r e rest t :
  Forall (λ a, ∃ d, heap w !! a = Some (Ok d)) pre →
  heap w !! r = Some (Err e) →
  err_unwrap e w = (Thrown t, w) →
  Array_map (pre ++ r :: rest) unwrap w = (Thrown t, w).
Proof.
  intros Hpre Hr Ht. induction Hpre as [|a pre [d Ha] _ IH]; simpl.
  - apply bind_Thrown. by rewrite (unwrap_on_err _ _ e Hr).
  - rewrite (bind_Returned _ _ _ _ _ (unwrap_on_ok _ _ d Ha)).
    by apply bind_Thrown.
Qed.

(** [Result.all(results).unwrap()] returns or throws as unwrapping the
    elements one by one, in order, does: it returns the array of what the
    elements' [unwrap] return when all return, and throws what the first
    throwing [unwrap] throws otherwise. *)
Theorem all_then_unwrap_is_unwrap_each (w : world) results objs :
  denotes w results objs →
  ((r ← Result.all results; unwrap r) w).1
  = ((values ← Array_map results unwrap; mret (VArr values)) w).1.
Proof.
  intros H.
  destruct (first_err_or_all_ok w results objs H)
    as [(pre & r & e & rest & -> & Hpre & Hr)|[ds Hds]].
  - unfold Result.all.
    rewrite (bind_Returned _ _ _ _ _
               (all_loop_first_err w pre r e rest [] Hpre Hr)).
    rewrite (bind_Thrown _ _ _ _ _
               (Array_map_unwrap_first_err w pre r e rest _ Hpre Hr
                  (err_unwrap_throws e w))).
    rewrite (unwrap_on_err _ _ e Hr). by rewrite err_unwrap_throws.
  - assert (Result.all results w
            = (Returned (length (heap w)), extend w (Ok (VArr ds)))) as Hall.
    { unfold Result.all. by rewrite (all_loop_all_ok w results ds [] Hds). }
    rewrite (bind_Returned _ _ _ _ _ Hall).
    rewrite (unwrap_on_ok _ _ (VArr ds) (lookup_extend_new w (Ok (VArr ds)))).
    by rewrite (bind_Returned _ _ _ _ _ (Array_map_unwrap_all_ok w _ _ Hds)).
Qed.

Lemma all_then_unwrap_is_unwrap_each_witness :
  ((r ← Result.all [0; 1; 2; 3]; unwrap r) four_results).1
  = ((values ← Array_map [0; 1; 2; 3] unwrap; mret (VArr values))
       four_results).1.
Proof.
  apply (all_then_unwrap_is_unwrap_each four_results [0; 1; 2; 3]
           [Ok (VNum 1); Err (VStr "e1"); Ok (VNum 3); Err (VStr "e2")]).
  by repeat constructor.
Defined.
